(** * Countries table: filter, sort, paginate, export

    A shallow embedding of [src/Apollo Country/src/qraph.jsx]: the
    comparator and [stableSort] helpers, the state handlers of the
    [Countries] component and the values it derives on every render
    ([sortedAndFilteredData], [emptyRows], the page slice, the exported
    worksheet).

    Conventions.
    - A JavaScript string is a [string]: a sequence of code units, here
      8-bit ones; the order on strings is the code-unit order, as for [<].
    - A JavaScript number that holds an integer (indices, lengths, page
      numbers) is a [Z].
    - Code that may throw returns a [result]. *)

From Stdlib Require Import ZArith List String Ascii Bool Lia.
From Stdlib Require Import Permutation Sorted.
Import ListNotations.

Local Open Scope Z_scope.

(** ** The error monad of code that may throw *)

Inductive result (A : Type) : Type :=
| Ok (a : A)
| TypeError.
Arguments Ok {A} a.
Arguments TypeError {A}.

Definition bind {A B : Type} (m : result A) (k : A -> result B) : result B :=
  match m with
  | Ok a => k a
  | TypeError => TypeError
  end.

Notation "x <- m ;; k" := (bind m (fun x => k))
  (at level 61, m at next level, right associativity).

(** ** Built-ins of the language the page relies on *)

Module JS.

(** *** Strings *)

(** [String.prototype.toLowerCase], code unit by code unit: [A-Z] and the
    Latin-1 capitals move up by 32. *)
Definition lower_unit (c : ascii) : ascii :=
  let n := N_of_ascii c in
  if ((65 <=? n) && (n <=? 90)
      || (192 <=? n) && (n <=? 222) && negb (n =? 215))%N
  then ascii_of_N (n + 32) else c.

Fixpoint toLowerCase (s : string) : string :=
  match s with
  | EmptyString => EmptyString
  | String c s' => String (lower_unit c) (toLowerCase s')
  end.

(** [s.includes(t)]: [t] occurs in [s] as a contiguous substring. *)
Fixpoint includes (s t : string) : bool :=
  if String.prefix t s then true
  else match s with
       | EmptyString => false
       | String _ s' => includes s' t
       end.

(** [ls.join(sep)] on an array of strings. *)
Definition join (sep : string) (ls : list string) : string :=
  String.concat sep ls.

(** *** Numbers read from strings

    The comparator only ever compares a number read from a string with the
    [+0] that [null] converts to, so the sign class of the number is all it
    can observe. *)
Inductive NumberSign := NaN | Negative | Zero | Positive.

Definition negate (n : NumberSign) : NumberSign :=
  match n with
  | Negative => Positive
  | Positive => Negative
  | other => other
  end.

Definition unit_in (codes : list N) (c : ascii) : bool :=
  existsb (N.eqb (N_of_ascii c)) codes.

Definition unit_between (lo hi : N) (c : ascii) : bool :=
  ((lo <=? N_of_ascii c) && (N_of_ascii c <=? hi))%N.

(** TAB, LF, VT, FF, CR, SP, NBSP. *)
Definition is_white_space : ascii -> bool := unit_in [9; 10; 11; 12; 13; 32; 160]%N.
Definition is_digit : ascii -> bool := unit_between 48 57.
Definition is_hex_digit (c : ascii) : bool :=
  is_digit c || unit_between 65 70 c || unit_between 97 102 c.
Definition is_octal_digit : ascii -> bool := unit_between 48 55.
Definition is_binary_digit : ascii -> bool := unit_between 48 49.
Definition is_zero : ascii -> bool := unit_in [48]%N.

Fixpoint trim_start (l : list ascii) : list ascii :=
  match l with
  | c :: l' => if is_white_space c then trim_start l' else l
  | [] => []
  end.

Definition trim (l : list ascii) : list ascii :=
  rev (trim_start (rev (trim_start l))).

(** Splits at the first unit that satisfies [p]; the unit itself is dropped. *)
Fixpoint split_at (p : ascii -> bool) (l : list ascii)
  : list ascii * option (list ascii) :=
  match l with
  | [] => ([], None)
  | c :: l' =>
      if p c then ([], Some l')
      else let (a, b) := split_at p l' in (c :: a, b)
  end.

Definition digits_value (l : list ascii) : Z :=
  fold_left (fun acc c => 10 * acc + (Z.of_N (N_of_ascii c) - 48)) l 0.

Definition nonempty {A : Type} (l : list A) : bool :=
  match l with [] => false | _ => true end.

(** [ExponentPart]: an optional sign and at least one digit. *)
Definition exponent_value (e : list ascii) : option Z :=
  let (neg, ds) :=
    match e with
    | c :: e' => if unit_in [45]%N c then (true, e')
                 else if unit_in [43]%N c then (false, e')
                 else (false, e)
    | [] => (false, [])
    end in
  if nonempty ds && forallb is_digit ds
  then Some (if neg then - digits_value ds else digits_value ds)
  else None.

(** [StrUnsignedDecimalLiteral]: [Infinity], or digits with an optional
    fraction and exponent.  A non-zero literal of value [m * 10^k] reads as
    zero when it is at most [2^-1075], half the least positive double. *)
Definition unsigned_decimal (u : list ascii) : NumberSign :=
  if list_eq_dec ascii_dec u (list_ascii_of_string "Infinity") then Positive
  else
    let (mantissa, exponent) := split_at (unit_in [69; 101]%N) u in
    let (int_part, fraction) := split_at (unit_in [46]%N) mantissa in
    let frac := match fraction with Some f => f | None => [] end in
    let shape :=
      forallb is_digit int_part && forallb is_digit frac
      && (nonempty int_part || nonempty frac) in
    let e := match exponent with
             | None => Some 0
             | Some e => exponent_value e
             end in
    match shape, e with
    | true, Some e =>
        let m := digits_value (int_part ++ frac) in
        let k := e - Z.of_nat (List.length frac) in
        if m =? 0 then Zero
        else if (k <? 0) && (m * 2 ^ 1075 <=? 10 ^ (- k)) then Zero
        else Positive
    | _, _ => NaN
    end.

(** [0x], [0o] and [0b] literals take no sign. *)
Definition non_decimal (l : list ascii) : option NumberSign :=
  match l with
  | z :: r :: ds =>
      let digit :=
        if unit_in [88; 120]%N r then Some is_hex_digit
        else if unit_in [79; 111]%N r then Some is_octal_digit
        else if unit_in [66; 98]%N r then Some is_binary_digit
        else None in
      match digit with
      | Some digit =>
          if is_zero z && nonempty ds && forallb digit ds
          then Some (if forallb is_zero ds then Zero else Positive)
          else None
      | None => None
      end
  | _ => None
  end.

(** The sign class of [StringToNumber(s)]. *)
Definition StringToNumber (s : string) : NumberSign :=
  let l := trim (list_ascii_of_string s) in
  match l with
  | [] => Zero
  | c :: l' =>
      match non_decimal l with
      | Some n => n
      | None =>
          if unit_in [45]%N c then negate (unsigned_decimal l')
          else if unit_in [43]%N c then unsigned_decimal l'
          else unsigned_decimal l
      end
  end.

End JS.

(** ** Data model *)

Module Language.

Record t := make { code : string; name : string }.

End Language.

(** An optional string field ([capital], [currency]) as it reaches the
    page: a string, [null], or [undefined] when the field is absent.  These
    are also the primitive values a cell can hold. *)
Inductive optional :=
| Undefined
| Null
| Str (s : string).

Record Country := {
  name : string;
  native : string;
  capital : optional;
  currency : optional;
  emoji : string;
  languages : list Language.t
}.

(** What a property read [country[key]] can return. *)
Inductive value :=
| Prim (p : optional)
| Arr (ls : list Language.t).

(** The ids of [headCells]: the keys used for sorting and filtering. *)
Inductive column := col_name | col_native | col_capital | col_languages | col_currency.

Definition column_eq_dec (a b : column) : {a = b} + {a <> b}.
Proof. decide equality. Defined.

(** The property name a column id stands for. *)
Definition property_name (k : column) : string :=
  match k with
  | col_name => "name"
  | col_native => "native"
  | col_capital => "capital"
  | col_languages => "languages"
  | col_currency => "currency"
  end.

Module HeadCell.

Record t := make { id : column; label : string }.

End HeadCell.

Definition headCells : list HeadCell.t :=
  [HeadCell.make col_name "Name";
   HeadCell.make col_native "Native";
   HeadCell.make col_capital "Capital";
   HeadCell.make col_languages "Languages";
   HeadCell.make col_currency "Currency"].

(** [country[key]] *)
Definition prop (country : Country) (key : column) : value :=
  match key with
  | col_name => Prim (Str (name country))
  | col_native => Prim (Str (native country))
  | col_capital => Prim (capital country)
  | col_languages => Arr (languages country)
  | col_currency => Prim (currency country)
  end.

(** *** Conversions and operators on values *)

(** [ToPrimitive]: an array converts through [join(",")], and each plain
    object in it through [Object.prototype.toString]. *)
Definition ToPrimitive (v : value) : optional :=
  match v with
  | Prim p => p
  | Arr ls => Str (JS.join "," (map (fun _ => "[object Object]"%string) ls))
  end.

(** [x < y].  Two strings compare by code units; otherwise both sides
    convert to numbers, [undefined] to [NaN] and [null] to [+0], and a
    comparison with [NaN] is false. *)
Definition less_than (x y : value) : bool :=
  match ToPrimitive x, ToPrimitive y with
  | Str a, Str b => String.ltb a b
  | Undefined, _ | _, Undefined => false
  | Null, Null => false
  | Null, Str b =>
      match JS.StringToNumber b with JS.Positive => true | _ => false end
  | Str a, Null =>
      match JS.StringToNumber a with JS.Negative => true | _ => false end
  end.

(** [x > y] *)
Definition greater_than (x y : value) : bool := less_than y x.

(** [ToBoolean] on a primitive. *)
Definition truthy (p : optional) : bool :=
  match p with
  | Str s => negb (s =? "")%string
  | _ => false
  end.

(** The method call [v.toLowerCase()]: it throws unless [v] is a string. *)
Definition call_toLowerCase (v : value) : result string :=
  match v with
  | Prim (Str s) => Ok (JS.toLowerCase s)
  | _ => TypeError
  end.

(** *** Arrays *)

(** [array.map((el, index) => f(el, index))], counting from [index]. *)
Fixpoint map_index {A B : Type} (f : A -> Z -> B) (index : Z) (array : list A)
  : list B :=
  match array with
  | [] => []
  | el :: rest => f el index :: map_index f (index + 1) rest
  end.

(** [array.every(callback)]: stops at the first element that fails. *)
Fixpoint every {A : Type} (callback : A -> result bool) (array : list A)
  : result bool :=
  match array with
  | [] => Ok true
  | el :: rest =>
      b <- callback el ;;
      if b then every callback rest else Ok false
  end.

(** [array.filter(callback)] *)
Fixpoint filter_ {A : Type} (callback : A -> result bool) (array : list A)
  : result (list A) :=
  match array with
  | [] => Ok []
  | el :: rest =>
      b <- callback el ;;
      kept <- filter_ callback rest ;;
      Ok (if b then el :: kept else kept)
  end.

(** [array.slice(start, end)], with negative arguments counted from the
    end of the array. *)
Definition slice {A : Type} (array : list A) (start end_ : Z) : list A :=
  let len := Z.of_nat (List.length array) in
  let k := if start <? 0 then Z.max (len + start) 0 else Z.min start len in
  let final := if end_ <? 0 then Z.max (len + end_) 0 else Z.min end_ len in
  firstn (Z.to_nat (final - k)) (skipn (Z.to_nat k) array).

(** *** Sort state and comparators *)

Inductive Order := asc | desc.

Definition descendingComparator (a b : Country) (orderBy : column) : Z :=
  if less_than (prop b orderBy) (prop a orderBy) then -1
  else if greater_than (prop b orderBy) (prop a orderBy) then 1
  else 0.

Definition getComparator (order : Order) (orderBy : column)
  : Country -> Country -> Z :=
  match order with
  | desc => fun a b => descendingComparator a b orderBy
  | asc => fun a b => - descendingComparator a b orderBy
  end.

(** *** Filter state: an object from column ids to the text typed *)

Definition Filters := list (column * string).

(** [Object.keys(filters)] *)
Definition Object_keys (filters : Filters) : list column := map fst filters.

(** [filters[key]] *)
Fixpoint lookup (filters : Filters) (key : column) : value :=
  match filters with
  | [] => Prim Undefined
  | (k, v) :: rest =>
      if column_eq_dec k key then Prim (Str v) else lookup rest key
  end.

(** [{ ...filters, [key]: v }]: an existing key keeps its place. *)
Fixpoint spread_set (filters : Filters) (key : column) (v : string) : Filters :=
  match filters with
  | [] => [(key, v)]
  | (k, old) :: rest =>
      if column_eq_dec k key then (k, v) :: rest
      else (k, old) :: spread_set rest key v
  end.

(** [x === ''] *)
Definition is_empty_string (x : value) : bool :=
  match x with
  | Prim (Str s) => (s =? "")%string
  | _ => false
  end.

(** *** Worksheet *)

Definition Row := list optional.
Definition Worksheet := list Row.

(** [worksheet.addRow(row)] *)
Definition addRow (worksheet : Worksheet) (row : Row) : Worksheet :=
  worksheet ++ [row].

(** ** The [Countries] component *)

Record State := {
  order : Order;
  orderBy : column;
  page : Z;
  rowsPerPage : Z;
  filters : Filters
}.

Definition initialState : State := {|
  order := asc;
  orderBy := col_name;
  page := 0;
  rowsPerPage := 5;
  filters := [(col_name, ""); (col_capital, ""); (col_currency, "")]%string
|}.

Definition rowsPerPageOptions : list Z := [5; 10; 25; 50; 100; 251].

Definition handleRequestSort (st : State) (property : column) : State :=
  let isAsc :=
    (if column_eq_dec (orderBy st) property then true else false)
    && match order st with asc => true | desc => false end in
  {| order := if isAsc then desc else asc;
     orderBy := property;
     page := page st;
     rowsPerPage := rowsPerPage st;
     filters := filters st |}.

Definition handleChangePage (st : State) (newPage : Z) : State :=
  {| order := order st;
     orderBy := orderBy st;
     page := newPage;
     rowsPerPage := rowsPerPage st;
     filters := filters st |}.

(** [value] is the page size the selector hands over, already parsed. *)
Definition handleChangeRowsPerPage (st : State) (value : Z) : State :=
  {| order := order st;
     orderBy := orderBy st;
     page := 0;
     rowsPerPage := value;
     filters := filters st |}.

Definition handleFilterChange (st : State) (text : string) (filterKey : column)
  : State :=
  {| order := order st;
     orderBy := orderBy st;
     page := page st;
     rowsPerPage := rowsPerPage st;
     filters := spread_set (filters st) filterKey text |}.

Definition applyFilters (filters : Filters) (country : Country) : result bool :=
  every (fun filterKey =>
    if is_empty_string (lookup filters filterKey) then Ok true
    else match filterKey with
    | col_languages =>
        filterValue <- call_toLowerCase (lookup filters filterKey) ;;
        let countryLanguages :=
          map (fun language => JS.toLowerCase (Language.name language))
              (languages country) in
        Ok (existsb (fun language => JS.includes language filterValue)
                    countryLanguages)
    | col_currency =>
        if truthy (currency country) then
          text <- call_toLowerCase (Prim (currency country)) ;;
          pattern <- call_toLowerCase (lookup filters filterKey) ;;
          Ok (JS.includes text pattern)
        else Ok false
    | col_capital =>
        if truthy (capital country) then
          text <- call_toLowerCase (Prim (capital country)) ;;
          pattern <- call_toLowerCase (lookup filters filterKey) ;;
          Ok (JS.includes text pattern)
        else Ok false
    | _ =>
        text <- call_toLowerCase (prop country filterKey) ;;
        pattern <- call_toLowerCase (lookup filters filterKey) ;;
        Ok (JS.includes text pattern)
    end) (Object_keys filters).

(** The header row of the export. *)
Definition header : Row :=
  [Str "Name"; Str "Capital"; Str "Currency"; Str "Languages"; Str "Native"].

(** The data row the export writes for one country. *)
Definition exportRow (country : Country) : Row :=
  let languages :=
    JS.join ", " (map (fun language => Language.name language)
                      (languages country)) in
  [Str (name country); capital country; currency country; Str languages].

Section Engine.

(** [Array.prototype.sort]: the engine's sort, given the comparator and the
    array.  A comparator result below zero puts its first argument first. *)
Variable Array_sort : forall A : Type, (A -> A -> Z) -> list A -> list A.

Definition stableSort {A : Type} (array : list A) (comparator : A -> A -> Z)
  : list A :=
  let stabilizedThis := map_index (fun el index => (el, index)) 0 array in
  let sorted :=
    Array_sort _ (fun a b =>
      let order := comparator (fst a) (fst b) in
      if negb (order =? 0) then order else snd a - snd b) stabilizedThis in
  map (fun el => fst el) sorted.

Definition sortedAndFilteredData (countries : list Country) (st : State)
  : result (list Country) :=
  filter_ (applyFilters (filters st))
          (stableSort countries (getComparator (order st) (orderBy st))).

Definition emptyRows (countries : list Country) (st : State) : result Z :=
  rows <- sortedAndFilteredData countries st ;;
  Ok (rowsPerPage st
      - Z.min (rowsPerPage st)
              (Z.of_nat (List.length rows) - page st * rowsPerPage st)).

(** The countries rendered as table rows. *)
Definition visibleRows (countries : list Country) (st : State)
  : result (list Country) :=
  rows <- sortedAndFilteredData countries st ;;
  Ok (slice rows (page st * rowsPerPage st)
            (page st * rowsPerPage st + rowsPerPage st)).

(** The rows of the worksheet [exportToExcel] builds before it serialises
    and downloads it. *)
Definition exportToExcel (countries : list Country) (st : State)
  : result Worksheet :=
  rows <- sortedAndFilteredData countries st ;;
  let worksheet := addRow [] header in
  Ok (fold_left (fun worksheet country => addRow worksheet (exportRow country))
                rows worksheet).

(** The rows as the specification derives them: filter the full list,
    then sort the rows that are left. *)
Definition spec_filteredAndSortedData (countries : list Country) (st : State)
  : result (list Country) :=
  kept <- filter_ (applyFilters (filters st)) countries ;;
  Ok (stableSort kept (getComparator (order st) (orderBy st))).

(** ... and then take the slice of the current page. *)
Definition spec_visibleRows (countries : list Country) (st : State)
  : result (list Country) :=
  rows <- spec_filteredAndSortedData countries st ;;
  Ok (slice rows (page st * rowsPerPage st)
            (page st * rowsPerPage st + rowsPerPage st)).

End Engine.

(** ** A reference sort

    Insertion sort, stable on ties.  It stands for the engine where a
    concrete run is needed; [Array_sort_contract] below is all the general
    results ask of the engine. *)

Fixpoint insert {A : Type} (cmp : A -> A -> Z) (x : A) (l : list A) : list A :=
  match l with
  | [] => [x]
  | y :: l' => if cmp x y <=? 0 then x :: y :: l' else y :: insert cmp x l'
  end.

Fixpoint insertion_sort (A : Type) (cmp : A -> A -> Z) (l : list A) : list A :=
  match l with
  | [] => []
  | x :: l' => insert cmp x (insertion_sort A cmp l')
  end.

(** ** Specification-side notions

    What the statements below are phrased with: containment, the match of
    a filter, the contract on the engine's sort, pages, and sample rows. *)

(** *** Filtering *)

(** [t] occurs in [s]. *)
Definition substring_of (t s : string) : Prop :=
  exists before after : string, s = (before ++ t ++ after)%string.

(** Case-insensitive containment of [pattern] in [text]. *)
Definition contains_ci (text pattern : string) : Prop :=
  substring_of (JS.toLowerCase pattern) (JS.toLowerCase text).

(** What it means for a filter text to match a row on a column, in the
    words of the specification: containment in the column's value; for the
    languages, containment in one of the language names; a missing capital
    or currency matches nothing. *)
Definition spec_matches (country : Country) (key : column) (pattern : string)
  : Prop :=
  match key with
  | col_name => contains_ci (name country) pattern
  | col_native => contains_ci (native country) pattern
  | col_languages =>
      exists language, In language (languages country)
                       /\ contains_ci (Language.name language) pattern
  | col_capital =>
      exists s, capital country = Str s /\ contains_ci s pattern
  | col_currency =>
      exists s, currency country = Str s /\ contains_ci s pattern
  end.

(** The filter [key] is present in the filter state with the non-empty
    text [pattern]. *)
Definition active (filters : Filters) (key : column) (pattern : string) : Prop :=
  In key (Object_keys filters)
  /\ lookup filters key = Prim (Str pattern)
  /\ pattern <> EmptyString.

(** The decision the callback of [applyFilters] takes for one key. *)
Definition matchesb (country : Country) (key : column) (pattern : string)
  : bool :=
  let ci text := JS.includes (JS.toLowerCase text) (JS.toLowerCase pattern) in
  match key with
  | col_name => ci (name country)
  | col_native => ci (native country)
  | col_languages =>
      existsb (fun language => ci (Language.name language)) (languages country)
  | col_capital =>
      match capital country with
      | Str s => negb (s =? "")%string && ci s
      | _ => false
      end
  | col_currency =>
      match currency country with
      | Str s => negb (s =? "")%string && ci s
      | _ => false
      end
  end.

(** The decision of [applyFilters]: every key of the filter state holds the
    empty text or a text that matches. *)
Definition keepsb (filters : Filters) (country : Country) : bool :=
  forallb (fun key =>
    match lookup filters key with
    | Prim (Str pattern) =>
        (pattern =? "")%string || matchesb country key pattern
    | _ => false
    end) (Object_keys filters).

(** *** Sorting *)

(** The comparator does not put [b] before [a]. *)
Definition before {A : Type} (cmp : A -> A -> Z) (a b : A) : Prop :=
  cmp a b <= 0.

(** A comparator is consistent on the elements of [l] when it orders them
    as a total preorder: opposite results on swapped arguments, and
    transitivity. *)
Definition consistent_on {A : Type} (cmp : A -> A -> Z) (l : list A) : Prop :=
  (forall a b, In a l -> In b l -> (cmp a b < 0 <-> 0 < cmp b a))
  /\ (forall a b c, In a l -> In b l -> In c l ->
        cmp a b <= 0 -> cmp b c <= 0 -> cmp a c <= 0).

(** What the general results ask of the engine's sort: on a comparator
    that is consistent on the array, the result is a rearrangement of the
    array in which no element is put before one that precedes it.  This
    is what the language standard requires of [Array.prototype.sort]; for a
    comparator that is not consistent it leaves the order to the engine,
    and so does the contract. *)
Definition Array_sort_contract
    (Array_sort : forall A : Type, (A -> A -> Z) -> list A -> list A) : Prop :=
  forall (A : Type) (cmp : A -> A -> Z) (l : list A),
    consistent_on cmp l ->
    Permutation l (Array_sort A cmp l)
    /\ StronglySorted (before cmp) (Array_sort A cmp l).

(** The comparator [stableSort] hands to the engine: the caller's
    comparator, ties broken by original index. *)
Definition stabilized {A : Type} (comparator : A -> A -> Z) (a b : A * Z) : Z :=
  let order := comparator (fst a) (fst b) in
  if negb (order =? 0) then order else snd a - snd b.

(** [array.map((el, index) => [el, index])], counting from [index]. *)
Definition with_index {A : Type} (index : Z) (array : list A) : list (A * Z) :=
  map_index (fun el index => (el, index)) index array.

(** What [stableSort] gets back from the engine: the rows with their
    original indices, sorted. *)
Definition sortedWithIndex
    (Array_sort : forall A : Type, (A -> A -> Z) -> list A -> list A)
    {A : Type} (array : list A) (comparator : A -> A -> Z) : list (A * Z) :=
  Array_sort _ (stabilized comparator) (with_index 0 array).

(** [x] stands before [y] in [l]. *)
Definition stands_before {A : Type} (x y : A) (l : list A) : Prop :=
  exists l1 l2 l3, l = l1 ++ x :: l2 ++ y :: l3.

(** The primitive the comparator reads for a row: its sort key. *)
Definition sortKey (country : Country) (orderBy : column) : optional :=
  ToPrimitive (prop country orderBy).

(** No row of [countries] lacks a value in the column. *)
Definition no_missing (orderBy : column) (countries : list Country) : Prop :=
  forall country, In country countries ->
    exists s, sortKey country orderBy = Str s.

Definition Z_of_comparison (c : comparison) : Z :=
  match c with
  | Lt => -1
  | Eq => 0
  | Gt => 1
  end.

(** *** Pages and worksheets *)

(** [ceil(count / rowsPerPage)], for a positive page size. *)
Definition pageCount (count rowsPerPage : Z) : Z := - ((- count) / rowsPerPage).

(** The slice the table renders for page [p]. *)
Definition pageSlice {A : Type} (rows : list A) (rowsPerPage p : Z) : list A :=
  slice rows (p * rowsPerPage) (p * rowsPerPage + rowsPerPage).

(** The slices of the pages [0 .. n-1], one after the other. *)
Definition pagesUpTo {A : Type} (rows : list A) (rowsPerPage : Z) (n : nat)
  : list A :=
  flat_map (fun p => pageSlice rows rowsPerPage (Z.of_nat p)) (seq 0 n).

(** The data rows of a worksheet: all rows but the header. *)
Definition dataRows (worksheet : Worksheet) : list Row := tl worksheet.

(** *** Sample data: three rows of the fetched list, in the order the
    service returns them (by country code: AO, AQ, AR) *)

Definition Angola : Country := {|
  name := "Angola";
  native := "Angola";
  capital := Str "Luanda";
  currency := Str "AOA";
  emoji := "AO";
  languages := [Language.make "pt" "Portuguese"]
|}.

Definition Antarctica : Country := {|
  name := "Antarctica";
  native := "Antarctica";
  capital := Null;
  currency := Null;
  emoji := "AQ";
  languages := []
|}.

Definition Argentina : Country := {|
  name := "Argentina";
  native := "Argentina";
  capital := Str "Buenos Aires";
  currency := Str "ARS";
  emoji := "AR";
  languages := [Language.make "es" "Spanish"; Language.make "gn" "Guarani"]
|}.

Definition fetched : list Country := [Angola; Antarctica; Argentina].

(** The state after a click on the Capital header and [text] typed into
    the Name filter. *)
Definition byCapital (text : string) : State :=
  handleFilterChange (handleRequestSort initialState col_capital) text col_name.

(** ** The table head, the table body and the events of the page *)

Module SortLabel.

Record t := make {
  active : bool;
  direction : Order;
  onClick : column;
  children : string
}.

End SortLabel.

(** [EnhancedTableHead]: one sort label per head cell.  [onClick] holds the
    property that [createSortHandler] hands to [onRequestSort]. *)
Definition EnhancedTableHead (order : Order) (orderBy : column)
    (headCells : list HeadCell.t) : list SortLabel.t :=
  map (fun headCell =>
         SortLabel.make
           (if column_eq_dec orderBy (HeadCell.id headCell) then true else false)
           (if column_eq_dec orderBy (HeadCell.id headCell) then order else asc)
           (HeadCell.id headCell)
           (HeadCell.label headCell))
      headCells.

(** The content of a body cell: the language names joined for the languages
    column, and the field of the country otherwise. *)
Definition renderCell (country : Country) (headCell : HeadCell.t) : value :=
  if column_eq_dec (HeadCell.id headCell) col_languages
  then Prim (Str (JS.join ", " (map (fun language => Language.name language)
                                    (languages country))))
  else prop country (HeadCell.id headCell).

(** The cells of the table row of a country. *)
Definition renderRow (country : Country) : list value :=
  map (renderCell country) headCells.

(** What the user can do on the page. *)
Inductive Event :=
| RequestSort (property : column)
| ChangePage (newPage : Z)
| ChangeRowsPerPage (value : Z)
| FilterChange (text : string) (filterKey : column).

Definition handle (st : State) (e : Event) : State :=
  match e with
  | RequestSort property => handleRequestSort st property
  | ChangePage newPage => handleChangePage st newPage
  | ChangeRowsPerPage value => handleChangeRowsPerPage st value
  | FilterChange text filterKey => handleFilterChange st text filterKey
  end.

(** What the widgets send: the pagination control offers the page sizes of
    [rowsPerPageOptions] and no page below the first. *)
Definition offered (e : Event) : Prop :=
  match e with
  | ChangePage newPage => 0 <= newPage
  | ChangeRowsPerPage value => In value rowsPerPageOptions
  | _ => True
  end.

(** The states the page can be in. *)
Inductive reachable : State -> Prop :=
| reachable_initial : reachable initialState
| reachable_step (st : State) (e : Event) :
    reachable st -> offered e -> reachable (handle st e).

(** The other direction. *)
Definition opposite (order : Order) : Order :=
  match order with
  | asc => desc
  | desc => asc
  end.

(** The sort key of a row with [n] languages: [n] times the text of a plain
    object, joined by commas. *)
Definition languagesKey (n : nat) : string :=
  JS.join "," (repeat "[object Object]"%string n).

(** What follows the first object text in the key of [n + 1] languages. *)
Fixpoint moreObjects (n : nat) : string :=
  match n with
  | O => EmptyString
  | S n' => ("," ++ "[object Object]" ++ moreObjects n')%string
  end.

(** A second reference sort: insertion sort that starts from the other
    end of the array. *)
Definition insertion_sort_from_end (A : Type) (cmp : A -> A -> Z) (l : list A)
  : list A :=
  insertion_sort A cmp (rev l).

(** * Proofs *)

(** ** Facts about the built-ins *)

Lemma prefix_iff (t s : string) :
  String.prefix t s = true <-> exists after, s = (t ++ after)%string.
Proof.
  revert s; induction t as [|c t IH]; intros s; simpl.
  - destruct s; split; intros; eauto.
  - destruct s as [|d s]; simpl.
    + split; [discriminate | intros [a Ha]; discriminate].
    + destruct (ascii_dec c d) as [->|Hcd].
      * rewrite IH. split; intros [a Ha]; exists a; congruence.
      * split; [discriminate | intros [a Ha]; congruence].
Qed.

Lemma includes_iff (s t : string) :
  JS.includes s t = true <-> substring_of t s.
Proof.
  induction s as [|c s IH]; cbn [JS.includes].
  - destruct (String.prefix t "") eqn:Hp.
    + split; [intros _ | reflexivity].
      apply prefix_iff in Hp. destruct Hp as [a Ha].
      exists EmptyString, a. exact Ha.
    + split; [discriminate|].
      intros [a [b Hab]]. destruct a; [|discriminate].
      assert (String.prefix t "" = true) by (apply prefix_iff; eauto).
      congruence.
  - destruct (String.prefix t (String c s)) eqn:Hp.
    + split; [intros _ | reflexivity].
      apply prefix_iff in Hp. destruct Hp as [a Ha].
      exists EmptyString, a. exact Ha.
    + rewrite IH. split.
      * intros [a [b Hab]]. exists (String c a), b. simpl. congruence.
      * intros [a [b Hab]]. destruct a as [|d a].
        -- assert (String.prefix t (String c s) = true)
             by (apply prefix_iff; eauto).
           congruence.
        -- exists a, b. simpl in Hab. congruence.
Qed.

Lemma toLowerCase_empty (s : string) :
  JS.toLowerCase s = EmptyString <-> s = EmptyString.
Proof. destruct s; simpl; split; congruence. Qed.

Lemma includes_empty_text (t : string) :
  JS.includes "" t = true -> t = EmptyString.
Proof.
  intros H. apply includes_iff in H. destruct H as [a [b Hab]].
  destruct a; [|discriminate]. destruct t; [reflexivity|discriminate].
Qed.

(** ** The filter *)

Lemma lookup_key (filters : Filters) (key : column) :
  In key (Object_keys filters) ->
  exists pattern, lookup filters key = Prim (Str pattern).
Proof.
  induction filters as [|[k v] rest IH]; simpl; [tauto|].
  intros H. destruct (column_eq_dec k key) as [->|Hne]; [eauto|].
  destruct H as [H|H]; [contradiction|auto].
Qed.

Lemma optional_string_ci (p : optional) (pattern : string) :
  pattern <> EmptyString ->
  (match p with
   | Str s => negb (s =? "")%string
              && JS.includes (JS.toLowerCase s) (JS.toLowerCase pattern)
   | _ => false
   end = true)
  <-> exists s, p = Str s /\ contains_ci s pattern.
Proof.
  intros Hne. unfold contains_ci. destruct p as [| |s].
  - split; [discriminate | intros [s [Hs _]]; discriminate].
  - split; [discriminate | intros [s [Hs _]]; discriminate].
  - rewrite andb_true_iff, includes_iff. split.
    + intros [_ H]. eauto.
    + intros [s' [Hs H]]. injection Hs as <-. split; [|exact H].
      destruct (String.eqb_spec s ""); [|reflexivity]. subst s.
      apply includes_iff in H. simpl in H.
      apply includes_empty_text in H.
      apply (proj1 (toLowerCase_empty pattern)) in H. contradiction.
Qed.

Lemma matchesb_iff (country : Country) (key : column) (pattern : string) :
  pattern <> EmptyString ->
  matchesb country key pattern = true <-> spec_matches country key pattern.
Proof.
  intros Hne. destruct key; simpl.
  - apply includes_iff.
  - apply includes_iff.
  - apply optional_string_ci; assumption.
  - rewrite existsb_exists. unfold contains_ci.
    split; intros [l [Hin H]]; exists l; split; auto; apply includes_iff; auto.
  - apply optional_string_ci; assumption.
Qed.

Lemma every_forallb {A : Type} (callback : A -> result bool) (f : A -> bool)
      (array : list A) :
  (forall el, In el array -> callback el = Ok (f el)) ->
  every callback array = Ok (forallb f array).
Proof.
  induction array as [|el rest IH]; intros H; simpl; [reflexivity|].
  rewrite (H el) by (left; reflexivity). simpl.
  destruct (f el); simpl; [|reflexivity].
  apply IH. intros; apply H; right; assumption.
Qed.

(** No read in [applyFilters] throws: it always returns, with [keepsb]. *)
Lemma applyFilters_keepsb (filters : Filters) (country : Country) :
  applyFilters filters country = Ok (keepsb filters country).
Proof.
  unfold applyFilters, keepsb. apply every_forallb.
  intros key Hin. destruct (lookup_key filters key Hin) as [pattern ->].
  simpl. destruct (String.eqb_spec pattern ""); simpl; [reflexivity|].
  destruct key; simpl; try reflexivity.
  - destruct (capital country) as [| |s]; simpl; try reflexivity.
    destruct (s =? "")%string; reflexivity.
  - f_equal. induction (languages country) as [|l ls IH]; simpl; congruence.
  - destruct (currency country) as [| |s]; simpl; try reflexivity.
    destruct (s =? "")%string; reflexivity.
Qed.

Lemma keepsb_iff (filters : Filters) (country : Country) :
  keepsb filters country = true
  <-> forall key pattern,
        active filters key pattern -> spec_matches country key pattern.
Proof.
  unfold keepsb. rewrite forallb_forall. split.
  - intros H key pattern (Hin & Hl & Hne).
    specialize (H key Hin). rewrite Hl in H.
    apply orb_true_iff in H. destruct H as [H|H].
    + apply String.eqb_eq in H. contradiction.
    + apply matchesb_iff; assumption.
  - intros H key Hin. destruct (lookup_key filters key Hin) as [pattern Hl].
    rewrite Hl. destruct (String.eqb_spec pattern ""); simpl; [reflexivity|].
    apply matchesb_iff; [assumption|]. apply H. repeat split; assumption.
Qed.

Lemma filter_filter {A : Type} (callback : A -> result bool) (f : A -> bool)
      (array : list A) :
  (forall el, callback el = Ok (f el)) ->
  filter_ callback array = Ok (filter f array).
Proof.
  intros H. induction array as [|el rest IH]; simpl; [reflexivity|].
  rewrite H, IH. reflexivity.
Qed.

(** ** Sorting with a comparator *)

Section Sorting.

Context {A : Type}.
Variable cmp : A -> A -> Z.

Lemma consistent_on_incl (l l' : list A) :
  incl l' l -> consistent_on cmp l -> consistent_on cmp l'.
Proof.
  intros Hi [Ha Ht]. split.
  - intros a b Ia Ib. apply Ha; apply Hi; assumption.
  - intros a b c Ia Ib Ic. apply Ht; apply Hi; assumption.
Qed.

Lemma insert_perm (x : A) (l : list A) : Permutation (x :: l) (insert cmp x l).
Proof.
  induction l as [|y l IH]; simpl; [reflexivity|].
  destruct (cmp x y <=? 0); [reflexivity|].
  rewrite perm_swap. apply perm_skip. exact IH.
Qed.

Lemma insertion_sort_perm (l : list A) :
  Permutation l (insertion_sort A cmp l).
Proof.
  induction l as [|x l IH]; simpl; [reflexivity|].
  rewrite <- insert_perm. apply perm_skip. exact IH.
Qed.

Lemma insert_sorted (x : A) (l : list A) :
  consistent_on cmp (x :: l) ->
  StronglySorted (before cmp) l -> StronglySorted (before cmp) (insert cmp x l).
Proof.
  intros Hc Hs. induction Hs as [|y l Hs IH Hy]; simpl.
  - constructor; constructor.
  - destruct Hc as [Ha Ht].
    destruct (Z.leb_spec (cmp x y) 0) as [Hle|Hgt].
    + constructor; [constructor; assumption|].
      constructor; [exact Hle|].
      rewrite Forall_forall in Hy |- *. intros z Hz.
      apply (Ht x y z); simpl; auto. apply Hy; assumption.
    + constructor.
      * apply IH. apply consistent_on_incl with (l := x :: y :: l).
        -- intros z [Hz|Hz]; simpl; auto.
        -- split; assumption.
      * eapply Permutation_Forall; [apply insert_perm|].
        constructor; [|exact Hy].
        unfold before. apply Z.lt_le_incl. apply Ha; simpl; auto.
Qed.

Lemma insertion_sort_sorted (l : list A) :
  consistent_on cmp l -> StronglySorted (before cmp) (insertion_sort A cmp l).
Proof.
  induction l as [|x l IH]; intros Hc; simpl; [constructor|].
  apply insert_sorted.
  - apply consistent_on_incl with (l := x :: l); [|exact Hc].
    intros z [Hz|Hz]; [left; assumption|right].
    eapply Permutation_in; [symmetry; apply insertion_sort_perm|exact Hz].
  - apply IH. apply consistent_on_incl with (l := x :: l); [|exact Hc].
    intros z Hz; right; assumption.
Qed.

(** When ties between distinct elements are impossible, the sorted
    arrangement of a list is unique. *)
Lemma sorted_perm_unique (l1 l2 : list A) :
  (forall a b, In a l1 -> In b l1 -> cmp a b <= 0 -> cmp b a <= 0 -> a = b) ->
  Permutation l1 l2 ->
  StronglySorted (before cmp) l1 -> StronglySorted (before cmp) l2 -> l1 = l2.
Proof.
  revert l2. induction l1 as [|x l1 IH]; intros l2 Hanti Hp H1 H2.
  - apply Permutation_nil in Hp. congruence.
  - destruct l2 as [|y l2];
      [symmetry in Hp; apply Permutation_nil in Hp; discriminate|].
    inversion H1 as [|? ? H1' Hx]; subst.
    inversion H2 as [|? ? H2' Hy]; subst.
    assert (Iy : In y (x :: l1))
      by (eapply Permutation_in; [symmetry; exact Hp|left; reflexivity]).
    assert (Ix : In x (y :: l2))
      by (eapply Permutation_in; [exact Hp|left; reflexivity]).
    assert (Exy : x = y).
    { destruct Iy as [Iy|Iy]; [assumption|].
      destruct Ix as [Ix|Ix]; [congruence|].
      rewrite Forall_forall in Hx, Hy.
      apply Hanti; [left; reflexivity|right; assumption| |].
      - apply Hx; assumption.
      - apply Hy; assumption. }
    subst y. f_equal. apply IH; auto.
    + intros a b Ia Ib. apply Hanti; right; assumption.
    + eapply Permutation_cons_inv; exact Hp.
Qed.

(** Filtering a sorted list and inserting, or inserting and filtering. *)
Lemma filter_insert (f : A -> bool) (x : A) (l : list A) :
  consistent_on cmp (x :: l) -> StronglySorted (before cmp) l ->
  filter f (insert cmp x l)
  = if f x then insert cmp x (filter f l) else filter f l.
Proof.
  intros Hc Hs. induction Hs as [|y l Hs IH Hy]; simpl.
  - destruct (f x); reflexivity.
  - assert (Hc' : consistent_on cmp (x :: l)).
    { apply consistent_on_incl with (l := x :: y :: l); [|exact Hc].
      intros z [Hz|Hz]; simpl; auto. }
    specialize (IH Hc'). destruct Hc as [Ha Ht].
    destruct (Z.leb_spec (cmp x y) 0) as [Hle|Hgt]; simpl.
    + destruct (f x); [|reflexivity].
      destruct (f y); simpl.
      * apply Z.leb_le in Hle. rewrite Hle. reflexivity.
      * assert (Hall : Forall (before cmp x) (filter f l)).
        { rewrite Forall_forall in Hy |- *. intros z Hz.
          apply filter_In in Hz. destruct Hz as [Hz _].
          apply (Ht x y z); simpl; auto. apply Hy; assumption. }
        destruct (filter f l) as [|z r]; simpl; [reflexivity|].
        inversion Hall as [|? ? Hz _]; subst.
        apply Z.leb_le in Hz. rewrite Hz. reflexivity.
    + rewrite IH. destruct (f y); destruct (f x); simpl; try reflexivity.
      apply Z.leb_gt in Hgt. rewrite Hgt. reflexivity.
Qed.

Lemma filter_insertion_sort (f : A -> bool) (l : list A) :
  consistent_on cmp l ->
  filter f (insertion_sort A cmp l) = insertion_sort A cmp (filter f l).
Proof.
  induction l as [|x l IH]; intros Hc; simpl; [reflexivity|].
  assert (Hl : consistent_on cmp l).
  { apply consistent_on_incl with (l := x :: l); [|exact Hc].
    intros z Hz; right; assumption. }
  rewrite filter_insert.
  - rewrite IH by exact Hl. destruct (f x); reflexivity.
  - apply consistent_on_incl with (l := x :: l); [|exact Hc].
    intros z [Hz|Hz]; [left; assumption|right].
    eapply Permutation_in; [symmetry; apply insertion_sort_perm|exact Hz].
  - apply insertion_sort_sorted; exact Hl.
Qed.

End Sorting.

Lemma insertion_sort_contract : Array_sort_contract insertion_sort.
Proof.
  intros A cmp l Hc. split.
  - apply insertion_sort_perm.
  - apply insertion_sort_sorted; exact Hc.
Qed.

(** ** [stableSort] against the reference sort *)

Lemma stableSort_unfold
    (Array_sort : forall A : Type, (A -> A -> Z) -> list A -> list A)
    {A : Type} (array : list A) (comparator : A -> A -> Z) :
  stableSort Array_sort array comparator
  = map fst (Array_sort _ (stabilized comparator) (with_index 0 array)).
Proof. reflexivity. Qed.

Lemma with_index_fst {A : Type} (k : Z) (l : list A) : map fst (with_index k l) = l.
Proof.
  revert k; induction l as [|x l IH]; intros k; simpl; [reflexivity|].
  f_equal. apply IH.
Qed.

Lemma with_index_lower {A : Type} (k : Z) (l : list A) (p : A * Z) :
  In p (with_index k l) -> k <= snd p /\ In (fst p) l.
Proof.
  revert k; induction l as [|x l IH]; intros k; simpl; [tauto|].
  intros [<-|H]; simpl; [split; [lia|auto]|].
  apply IH in H. split; [lia|tauto].
Qed.

Lemma with_index_functional {A : Type} (k : Z) (l : list A) (p q : A * Z) :
  In p (with_index k l) -> In q (with_index k l) -> snd p = snd q -> p = q.
Proof.
  revert k; induction l as [|x l IH]; intros k; simpl; [tauto|].
  intros [<-|Hp] [<-|Hq] E; simpl in *.
  - reflexivity.
  - apply with_index_lower in Hq. lia.
  - apply with_index_lower in Hp. lia.
  - eapply IH; eassumption.
Qed.

Section Stabilized.

Context {A : Type}.
Variable cmp : A -> A -> Z.

Lemma stabilized_consistent (k : Z) (l : list A) :
  consistent_on cmp l -> consistent_on (stabilized cmp) (with_index k l).
Proof.
  intros [Ha Ht]. split.
  - intros a b Ia Ib.
    apply with_index_lower in Ia, Ib. destruct Ia as [_ Ia], Ib as [_ Ib].
    pose proof (Ha _ _ Ia Ib). pose proof (Ha _ _ Ib Ia).
    unfold stabilized.
    destruct (Z.eqb_spec (cmp (fst a) (fst b)) 0);
      destruct (Z.eqb_spec (cmp (fst b) (fst a)) 0); simpl; lia.
  - intros a b c Ia Ib Ic.
    apply with_index_lower in Ia, Ib, Ic.
    destruct Ia as [_ Ia], Ib as [_ Ib], Ic as [_ Ic].
    pose proof (Ha _ _ Ia Ib). pose proof (Ha _ _ Ib Ia).
    pose proof (Ha _ _ Ia Ic). pose proof (Ha _ _ Ic Ia).
    pose proof (Ha _ _ Ib Ic). pose proof (Ha _ _ Ic Ib).
    pose proof (Ht _ _ _ Ia Ib Ic).
    pose proof (Ht _ _ _ Ic Ia Ib).
    pose proof (Ht _ _ _ Ib Ic Ia).
    unfold stabilized.
    destruct (Z.eqb_spec (cmp (fst a) (fst b)) 0);
      destruct (Z.eqb_spec (cmp (fst b) (fst c)) 0);
      destruct (Z.eqb_spec (cmp (fst a) (fst c)) 0); simpl; lia.
Qed.

Lemma stabilized_no_ties (k : Z) (l : list A) (a b : A * Z) :
  consistent_on cmp l ->
  In a (with_index k l) -> In b (with_index k l) ->
  stabilized cmp a b <= 0 -> stabilized cmp b a <= 0 -> a = b.
Proof.
  intros [Ha _] Ia Ib H1 H2. apply (with_index_functional k l a b Ia Ib).
  apply with_index_lower in Ia, Ib. destruct Ia as [_ Ia], Ib as [_ Ib].
  pose proof (Ha _ _ Ia Ib). pose proof (Ha _ _ Ib Ia).
  unfold stabilized in *.
  destruct (Z.eqb_spec (cmp (fst a) (fst b)) 0);
    destruct (Z.eqb_spec (cmp (fst b) (fst a)) 0); simpl in *; lia.
Qed.

Lemma insert_stabilized (x : A) (k : Z) (s : list (A * Z)) :
  Forall (fun p => k < snd p) s ->
  map fst (insert (stabilized cmp) (x, k) s) = insert cmp x (map fst s).
Proof.
  induction 1 as [|[y j] s Hj Hs IH]; simpl; [reflexivity|].
  unfold stabilized at 1. simpl in *.
  destruct (Z.eqb_spec (cmp x y) 0) as [E|E]; simpl.
  - rewrite E. simpl.
    destruct (Z.leb_spec (k - j) 0); [reflexivity|lia].
  - destruct (cmp x y <=? 0); simpl; [reflexivity|]. f_equal. exact IH.
Qed.

(** On the reference sort, breaking ties by index is the same as sorting
    stably, whatever the comparator. *)
Lemma insertion_sort_stabilized (k : Z) (l : list A) :
  map fst (insertion_sort _ (stabilized cmp) (with_index k l))
  = insertion_sort _ cmp l.
Proof.
  revert k; induction l as [|x l IH]; intros k; [reflexivity|].
  change (with_index k (x :: l)) with ((x, k) :: with_index (k + 1) l).
  cbn [insertion_sort].
  rewrite insert_stabilized; [rewrite IH; reflexivity|].
  eapply Permutation_Forall; [apply insertion_sort_perm|].
  apply Forall_forall. intros p Hp.
  apply with_index_lower in Hp. lia.
Qed.

End Stabilized.

(** Any engine that meets the contract sorts as the reference sort does,
    as long as the comparator is consistent on the array. *)
Lemma stableSort_insertion_sort
    (Array_sort : forall A : Type, (A -> A -> Z) -> list A -> list A)
    {A : Type} (array : list A) (comparator : A -> A -> Z) :
  Array_sort_contract Array_sort ->
  consistent_on comparator array ->
  stableSort Array_sort array comparator = insertion_sort A comparator array.
Proof.
  intros Hk Hc. rewrite stableSort_unfold.
  rewrite <- (insertion_sort_stabilized comparator 0 array). f_equal.
  pose proof (stabilized_consistent comparator 0 array Hc) as Hs.
  destruct (Hk _ _ _ Hs) as [Hp Hsorted].
  symmetry. apply sorted_perm_unique with (cmp := stabilized comparator).
  - intros a b Ia Ib.
    apply (stabilized_no_ties comparator 0 array a b Hc);
      (eapply Permutation_in;
       [symmetry; apply insertion_sort_perm|eassumption]).
  - rewrite <- Hp. symmetry. apply insertion_sort_perm.
  - apply insertion_sort_sorted; exact Hs.
  - exact Hsorted.
Qed.

(** ** The comparators of the page *)

Lemma ascii_compare_eq (x y z : ascii) :
  Ascii.compare x y = Eq -> Ascii.compare x z = Ascii.compare y z.
Proof.
  unfold Ascii.compare. intros H. apply N.compare_eq_iff in H.
  rewrite H. reflexivity.
Qed.

Lemma ascii_compare_eq_r (x y z : ascii) :
  Ascii.compare y z = Eq -> Ascii.compare x y = Ascii.compare x z.
Proof.
  unfold Ascii.compare. intros H. apply N.compare_eq_iff in H.
  rewrite H. reflexivity.
Qed.

Lemma ascii_compare_lt_trans (x y z : ascii) :
  Ascii.compare x y = Lt -> Ascii.compare y z = Lt -> Ascii.compare x z = Lt.
Proof.
  unfold Ascii.compare. rewrite !N.compare_lt_iff. lia.
Qed.

Lemma string_compare_lt_trans (a b c : string) :
  String.compare a b = Lt -> String.compare b c = Lt -> String.compare a c = Lt.
Proof.
  revert b c; induction a as [|x a IH]; intros [|y b] [|z c]; simpl;
    try congruence.
  destruct (Ascii.compare x y) eqn:Exy; try discriminate;
    destruct (Ascii.compare y z) eqn:Eyz; try discriminate; intros H1 H2.
  - rewrite (ascii_compare_eq _ _ _ Exy), Eyz. eauto.
  - rewrite (ascii_compare_eq _ _ _ Exy), Eyz. reflexivity.
  - rewrite <- (ascii_compare_eq_r _ _ _ Eyz), Exy. reflexivity.
  - rewrite (ascii_compare_lt_trans _ _ _ Exy Eyz). reflexivity.
Qed.

Lemma string_compare_refl (a : string) : String.compare a a = Eq.
Proof.
  induction a as [|x a IH]; simpl; [reflexivity|].
  unfold Ascii.compare. rewrite N.compare_refl. exact IH.
Qed.

Lemma string_compare_le_trans (a b c : string) :
  String.compare a b <> Gt -> String.compare b c <> Gt ->
  String.compare a c <> Gt.
Proof.
  intros H1 H2.
  destruct (String.compare a b) eqn:Eab; [| |congruence].
  - apply String.compare_eq_iff in Eab. subst b. exact H2.
  - destruct (String.compare b c) eqn:Ebc; [| |congruence].
    + apply String.compare_eq_iff in Ebc. subst c. congruence.
    + rewrite (string_compare_lt_trans _ _ _ Eab Ebc). discriminate.
Qed.

Lemma less_than_strings (x y : value) (a b : string) :
  ToPrimitive x = Str a -> ToPrimitive y = Str b ->
  less_than x y = String.ltb a b.
Proof. unfold less_than. intros -> ->. reflexivity. Qed.

(** On rows that both have a value in the column, the comparator is the
    order of the strings, reversed for [desc]. *)
Lemma getComparator_strings (order : Order) (orderBy : column)
      (a b : Country) (sa sb : string) :
  sortKey a orderBy = Str sa -> sortKey b orderBy = Str sb ->
  getComparator order orderBy a b
  = match order with
    | asc => Z_of_comparison (String.compare sa sb)
    | desc => Z_of_comparison (String.compare sb sa)
    end.
Proof.
  unfold sortKey. intros Ha Hb.
  assert (D : descendingComparator a b orderBy
              = Z_of_comparison (String.compare sb sa)).
  { unfold descendingComparator, greater_than.
    rewrite (less_than_strings _ _ sb sa Hb Ha).
    rewrite (less_than_strings _ _ sa sb Ha Hb).
    unfold String.ltb. rewrite (String.compare_antisym sb sa).
    destruct (String.compare sa sb); reflexivity. }
  destruct order; simpl; rewrite D; [|reflexivity].
  rewrite (String.compare_antisym sb sa).
  destruct (String.compare sa sb); reflexivity.
Qed.

Lemma getComparator_consistent (order : Order) (orderBy : column)
      (countries : list Country) :
  no_missing orderBy countries ->
  consistent_on (getComparator order orderBy) countries.
Proof.
  intros Hk. split.
  - intros a b Ia Ib.
    destruct (Hk a Ia) as [sa Ha]. destruct (Hk b Ib) as [sb Hb].
    rewrite (getComparator_strings order orderBy a b sa sb Ha Hb).
    rewrite (getComparator_strings order orderBy b a sb sa Hb Ha).
    destruct order; rewrite (String.compare_antisym sa sb);
      destruct (String.compare sb sa); simpl; lia.
  - intros a b c Ia Ib Ic.
    destruct (Hk a Ia) as [sa Ha]. destruct (Hk b Ib) as [sb Hb].
    destruct (Hk c Ic) as [sc Hc].
    rewrite (getComparator_strings order orderBy a b sa sb Ha Hb).
    rewrite (getComparator_strings order orderBy b c sb sc Hb Hc).
    rewrite (getComparator_strings order orderBy a c sa sc Ha Hc).
    destruct order.
    + pose proof (string_compare_le_trans sa sb sc) as T.
      destruct (String.compare sa sb); destruct (String.compare sb sc);
        destruct (String.compare sa sc); simpl; try lia;
        exfalso; apply T; congruence.
    + pose proof (string_compare_le_trans sc sb sa) as T.
      destruct (String.compare sb sa); destruct (String.compare sc sb);
        destruct (String.compare sc sa); simpl; try lia;
        exfalso; apply T; congruence.
Qed.

(** The name, native-name and languages columns never lack a value. *)
Lemma no_missing_total (orderBy : column) (countries : list Country) :
  orderBy = col_name \/ orderBy = col_native \/ orderBy = col_languages ->
  no_missing orderBy countries.
Proof.
  intros H country _. unfold sortKey.
  destruct H as [->|[->| ->]]; simpl; eauto.
Qed.

Lemma no_missing_filter (orderBy : column) (f : Country -> bool)
      (countries : list Country) :
  no_missing orderBy countries -> no_missing orderBy (filter f countries).
Proof.
  intros H country Hin. apply filter_In in Hin. apply H. tauto.
Qed.

(** ** The derived rows *)

Section Derived.

Variable Array_sort : forall A : Type, (A -> A -> Z) -> list A -> list A.

(** The filter never throws, so the derived rows always exist: the sorted
    list with the rows that fail a filter removed. *)
Lemma sortedAndFilteredData_eq (countries : list Country) (st : State) :
  sortedAndFilteredData Array_sort countries st
  = Ok (filter (keepsb (filters st))
          (stableSort Array_sort countries
             (getComparator (order st) (orderBy st)))).
Proof.
  unfold sortedAndFilteredData. apply filter_filter.
  intros country. apply applyFilters_keepsb.
Qed.

Lemma spec_filteredAndSortedData_eq (countries : list Country) (st : State) :
  spec_filteredAndSortedData Array_sort countries st
  = Ok (stableSort Array_sort (filter (keepsb (filters st)) countries)
          (getComparator (order st) (orderBy st))).
Proof.
  unfold spec_filteredAndSortedData.
  rewrite (filter_filter _ (keepsb (filters st)));
    [reflexivity | intros; apply applyFilters_keepsb].
Qed.

(** When no row lacks a value in the sort column, sorting and filtering
    commute on any engine that meets the contract. *)
Lemma sort_filter_commute (countries : list Country) (st : State) :
  Array_sort_contract Array_sort ->
  no_missing (orderBy st) countries ->
  sortedAndFilteredData Array_sort countries st
  = spec_filteredAndSortedData Array_sort countries st.
Proof.
  intros Hk Hm.
  rewrite sortedAndFilteredData_eq, spec_filteredAndSortedData_eq. f_equal.
  rewrite !stableSort_insertion_sort; try assumption.
  - apply filter_insertion_sort. apply getComparator_consistent; assumption.
  - apply getComparator_consistent. apply no_missing_filter; assumption.
  - apply getComparator_consistent; assumption.
Qed.

Lemma visibleRows_spec (countries : list Country) (st : State) :
  Array_sort_contract Array_sort ->
  no_missing (orderBy st) countries ->
  visibleRows Array_sort countries st = spec_visibleRows Array_sort countries st.
Proof.
  intros Hk Hm. unfold visibleRows, spec_visibleRows.
  rewrite sort_filter_commute by assumption. reflexivity.
Qed.

(** The name, native-name and languages columns always hold a value, so
    there the two orders agree on every list. *)
Lemma visibleRows_spec_total_columns (countries : list Country) (st : State) :
  Array_sort_contract Array_sort ->
  orderBy st = col_name \/ orderBy st = col_native
  \/ orderBy st = col_languages ->
  visibleRows Array_sort countries st = spec_visibleRows Array_sort countries st.
Proof.
  intros Hk Hcol. apply visibleRows_spec; [exact Hk|].
  apply no_missing_total. exact Hcol.
Qed.

End Derived.

(** ** Pagination *)

Lemma slice_nat {A : Type} (l : list A) (a b : nat) :
  slice l (Z.of_nat a) (Z.of_nat b) = firstn (b - a) (skipn a l).
Proof.
  unfold slice. set (len := List.length l).
  destruct (Z.ltb_spec (Z.of_nat a) 0); [lia|].
  destruct (Z.ltb_spec (Z.of_nat b) 0); [lia|].
  destruct (Nat.le_gt_cases len a) as [Hge|Hlt].
  - rewrite (skipn_all2 l Hge).
    rewrite (Z.min_r (Z.of_nat a) (Z.of_nat len)) by lia. rewrite Nat2Z.id.
    unfold len. rewrite skipn_all. rewrite !firstn_nil. reflexivity.
  - rewrite (Z.min_l (Z.of_nat a) (Z.of_nat len)) by lia. rewrite Nat2Z.id.
    destruct (Nat.le_gt_cases len b) as [Hb|Hb].
    + rewrite (Z.min_r (Z.of_nat b) (Z.of_nat len)) by lia.
      rewrite !firstn_all2; try reflexivity; rewrite length_skipn;
        fold len; lia.
    + rewrite (Z.min_l (Z.of_nat b) (Z.of_nat len)) by lia. f_equal. lia.
Qed.

Lemma firstn_plus {A : Type} (a c : nat) (l : list A) :
  firstn (a + c) l = firstn a l ++ firstn c (skipn a l).
Proof.
  revert l; induction a as [|a IH]; intros l; simpl; [reflexivity|].
  destruct l as [|x l]; simpl.
  - rewrite firstn_nil. reflexivity.
  - f_equal. apply IH.
Qed.

Lemma pagesUpTo_firstn {A : Type} (rows : list A) (size n : nat) :
  pagesUpTo rows (Z.of_nat size) n = firstn (n * size) rows.
Proof.
  unfold pagesUpTo. induction n as [|n IH]; [reflexivity|].
  rewrite seq_S, flat_map_app, IH. simpl. rewrite app_nil_r.
  unfold pageSlice.
  replace (Z.of_nat n * Z.of_nat size) with (Z.of_nat (n * size)) by lia.
  replace (Z.of_nat (n * size) + Z.of_nat size)
    with (Z.of_nat (n * size + size)) by lia.
  rewrite slice_nat.
  replace (n * size + size - n * size)%nat with size by lia.
  replace (size + n * size)%nat with (n * size + size)%nat by lia.
  symmetry. apply firstn_plus.
Qed.

Lemma pageCount_covers (count rowsPerPage : Z) :
  0 < rowsPerPage -> 0 <= count ->
  0 <= pageCount count rowsPerPage
  /\ count <= pageCount count rowsPerPage * rowsPerPage.
Proof.
  intros Hr Hc. unfold pageCount.
  pose proof (Z.mul_div_le (- count) rowsPerPage Hr).
  assert (- count / rowsPerPage <= 0) by (apply Z.div_le_upper_bound; lia).
  split; nia.
Qed.

Lemma slice_past_end {A : Type} (l : list A) (start end_ : Z) :
  Z.of_nat (List.length l) <= start -> slice l start end_ = [].
Proof.
  intros H. unfold slice.
  destruct (Z.ltb_spec start 0); [lia|].
  rewrite (Z.min_r start) by lia.
  replace (Z.to_nat _) with 0%nat; [reflexivity|].
  destruct (Z.ltb_spec end_ 0); lia.
Qed.

(** ** The export *)

Lemma fold_addRow (rows : list Country) (worksheet : Worksheet) :
  fold_left (fun worksheet country => addRow worksheet (exportRow country))
            rows worksheet
  = worksheet ++ map exportRow rows.
Proof.
  revert worksheet; induction rows as [|c rows IH]; intros worksheet; simpl.
  - rewrite app_nil_r. reflexivity.
  - rewrite IH. unfold addRow. rewrite <- app_assoc. reflexivity.
Qed.

Lemma exportToExcel_eq
    (Array_sort : forall A : Type, (A -> A -> Z) -> list A -> list A)
    (countries : list Country) (st : State) :
  exportToExcel Array_sort countries st
  = (rows <- sortedAndFilteredData Array_sort countries st ;;
     Ok (header :: map exportRow rows)).
Proof.
  unfold exportToExcel.
  destruct (sortedAndFilteredData Array_sort countries st); simpl;
    [|reflexivity].
  rewrite fold_addRow. reflexivity.
Qed.

(** ** The filter: claims *)

(** C3: a row is kept iff every non-empty filter matches it; a match is
    case-insensitive containment in the column's value, for the languages
    column containment in at least one language name, and a missing capital
    or currency matches no non-empty filter.  The filter always returns. *)
Theorem applyFilters_spec (filters : Filters) (country : Country) :
  exists kept : bool,
    applyFilters filters country = Ok kept
    /\ (kept = true
        <-> forall key pattern,
              active filters key pattern -> spec_matches country key pattern).
Proof.
  exists (keepsb filters country). split.
  - apply applyFilters_keepsb.
  - apply keepsb_iff.
Qed.

(** C7: on a country whose capital is null, undefined or empty, a filter
    state with a non-empty capital filter evaluates to "not kept", and the
    evaluation returns rather than throws. *)
Theorem applyFilters_missing_capital
    (filters : Filters) (country : Country) (pattern : string) :
  capital country = Null \/ capital country = Undefined
  \/ capital country = Str "" ->
  active filters col_capital pattern ->
  applyFilters filters country = Ok false.
Proof.
  intros Hcap Hact. rewrite applyFilters_keepsb. f_equal.
  destruct (keepsb filters country) eqn:Hk; [|reflexivity].
  exfalso. rewrite keepsb_iff in Hk.
  destruct (Hk _ _ Hact) as [s [Hs Hin]].
  destruct Hact as (_ & _ & Hne).
  destruct Hcap as [H|[H|H]]; rewrite H in Hs; try discriminate.
  injection Hs as <-. unfold contains_ci in Hin.
  apply includes_iff in Hin. simpl in Hin.
  apply includes_empty_text in Hin.
  apply (proj1 (toLowerCase_empty pattern)) in Hin. contradiction.
Qed.

Lemma applyFilters_missing_capital_witness :
  capital Antarctica = Null
  /\ active (filters (handleFilterChange initialState "lu" col_capital))
            col_capital "lu"
  /\ applyFilters (filters (handleFilterChange initialState "lu" col_capital))
                  Antarctica = Ok false.
Proof.
  assert (Hact : active
            (filters (handleFilterChange initialState "lu" col_capital))
            col_capital "lu").
  { split; [simpl; auto|]. split; [reflexivity|discriminate]. }
  split; [reflexivity|]. split; [exact Hact|].
  apply (applyFilters_missing_capital _ Antarctica "lu");
    [left; reflexivity | exact Hact].
Defined.

(** ** The sort state: claims *)

(** C8: a sort request on a column other than the current sort column
    makes that column the sort column with direction ascending, whatever
    the direction was. *)
Theorem handleRequestSort_other_column (st : State) (property : column) :
  property <> orderBy st ->
  order (handleRequestSort st property) = asc
  /\ orderBy (handleRequestSort st property) = property.
Proof.
  intros Hne. unfold handleRequestSort; simpl. split; [|reflexivity].
  destruct (column_eq_dec (orderBy st) property) as [E|_]; [|reflexivity].
  congruence.
Qed.

Lemma handleRequestSort_other_column_witness :
  col_capital <> orderBy (handleRequestSort initialState col_name)
  /\ order (handleRequestSort initialState col_name) = desc
  /\ order (handleRequestSort (handleRequestSort initialState col_name)
                              col_capital) = asc.
Proof.
  assert (H : col_capital <> orderBy (handleRequestSort initialState col_name))
    by discriminate.
  split; [exact H|]. split; [reflexivity|].
  exact (proj1 (handleRequestSort_other_column
                  (handleRequestSort initialState col_name) col_capital H)).
Defined.

(** ** Pagination and export: claims *)

Section Claims.

Variable Array_sort : forall A : Type, (A -> A -> Z) -> list A -> list A.

(** C4: the exported worksheet is the header row Name, Capital, Currency,
    Languages, Native followed by one row per country of the filtered and
    sorted list, in that order; a data row holds the name, the capital, the
    currency and the language names joined by a comma and a space, and has
    no cell under the Native header. *)
Theorem exportToExcel_rows (countries : list Country) (st : State) :
  exists rows,
    sortedAndFilteredData Array_sort countries st = Ok rows
    /\ exportToExcel Array_sort countries st
       = Ok ([Str "Name"; Str "Capital"; Str "Currency"; Str "Languages";
              Str "Native"]
             :: map (fun country =>
                       [Str (name country); capital country; currency country;
                        Str (JS.join ", " (map Language.name
                                               (languages country)))])
                    rows)
    /\ nth_error header 4 = Some (Str "Native")
    /\ forall country, nth_error (exportRow country) 4 = None.
Proof.
  rewrite exportToExcel_eq, sortedAndFilteredData_eq.
  eexists. split; [reflexivity|]. split; [reflexivity|].
  split; reflexivity.
Qed.

(** C5: the export has as many data rows as the filtered and sorted list
    has rows, and a change of page or of page size leaves the exported
    worksheet as it is. *)
Theorem exportToExcel_ignores_pagination (countries : list Country) (st : State) :
  exists rows worksheet,
    sortedAndFilteredData Array_sort countries st = Ok rows
    /\ exportToExcel Array_sort countries st = Ok worksheet
    /\ List.length (dataRows worksheet) = List.length rows
    /\ (forall newPage,
          exportToExcel Array_sort countries (handleChangePage st newPage)
          = Ok worksheet)
    /\ (forall size,
          exportToExcel Array_sort countries (handleChangeRowsPerPage st size)
          = Ok worksheet).
Proof.
  rewrite sortedAndFilteredData_eq.
  eexists. eexists. split; [reflexivity|].
  rewrite !exportToExcel_eq, !sortedAndFilteredData_eq. simpl.
  split; [reflexivity|]. split; [apply length_map|].
  split; intros; rewrite !exportToExcel_eq, !sortedAndFilteredData_eq;
    reflexivity.
Qed.

(** C6: for a positive page size, the rows shown on page [p] are the slice
    [pageSlice rows rowsPerPage p] of the filtered and sorted list, and the
    slices of the pages 0 to ceil(count / rowsPerPage) - 1, one after the
    other, are that list: nothing left out, nothing twice. *)
Theorem pages_cover_rows (countries : list Country) (st : State) :
  0 < rowsPerPage st ->
  exists rows,
    sortedAndFilteredData Array_sort countries st = Ok rows
    /\ (forall p, visibleRows Array_sort countries (handleChangePage st p)
                  = Ok (pageSlice rows (rowsPerPage st) p))
    /\ pagesUpTo rows (rowsPerPage st)
         (Z.to_nat (pageCount (Z.of_nat (List.length rows)) (rowsPerPage st)))
       = rows.
Proof.
  intros Hpos. rewrite sortedAndFilteredData_eq.
  eexists. split; [reflexivity|]. split.
  - intros p. unfold visibleRows. rewrite sortedAndFilteredData_eq. reflexivity.
  - set (rows := filter _ _).
    destruct (pageCount_covers (Z.of_nat (List.length rows)) (rowsPerPage st)
                Hpos (Nat2Z.is_nonneg _)) as [Hn Hc].
    set (n := pageCount _ _) in *.
    rewrite <- (Z2Nat.id (rowsPerPage st)) by lia.
    rewrite pagesUpTo_firstn. apply firstn_all2. nia.
Qed.

(** C9: a change of a filter leaves the page index as it was, and when the
    filtered list has at most page * rowsPerPage rows the table shows no
    row. *)
Theorem stale_page_shows_nothing (countries : list Country) (st : State) :
  (forall text filterKey,
     page (handleFilterChange st text filterKey) = page st)
  /\ exists rows,
       sortedAndFilteredData Array_sort countries st = Ok rows
       /\ (Z.of_nat (List.length rows) <= page st * rowsPerPage st ->
           visibleRows Array_sort countries st = Ok []).
Proof.
  split; [reflexivity|].
  unfold visibleRows. rewrite sortedAndFilteredData_eq.
  eexists. split; [reflexivity|]. intros H. simpl.
  rewrite slice_past_end by exact H. reflexivity.
Qed.

(** C10: the padding is rowsPerPage - min(rowsPerPage, count - page *
    rowsPerPage).  With a page size that is not negative and page *
    rowsPerPage <= count it lies between 0 and rowsPerPage; a page size of 5
    with 3 rows on page 0 gives 2; and with page * rowsPerPage > count it
    is larger than rowsPerPage. *)
Theorem emptyRows_bounds (countries : list Country) (st : State) :
  exists rows padding,
    sortedAndFilteredData Array_sort countries st = Ok rows
    /\ emptyRows Array_sort countries st = Ok padding
    /\ padding
       = rowsPerPage st
         - Z.min (rowsPerPage st)
                 (Z.of_nat (List.length rows) - page st * rowsPerPage st)
    /\ (0 <= rowsPerPage st ->
        page st * rowsPerPage st <= Z.of_nat (List.length rows) ->
        0 <= padding <= rowsPerPage st)
    /\ (rowsPerPage st = 5 -> page st = 0 -> List.length rows = 3%nat ->
        padding = 2)
    /\ (Z.of_nat (List.length rows) < page st * rowsPerPage st ->
        rowsPerPage st < padding).
Proof.
  unfold emptyRows. rewrite sortedAndFilteredData_eq. simpl.
  eexists. eexists. split; [reflexivity|]. split; [reflexivity|].
  split; [reflexivity|].
  repeat split; intros; lia.
Qed.

End Claims.

Lemma pages_cover_rows_witness :
  0 < rowsPerPage (byCapital "a")
  /\ exists rows,
       sortedAndFilteredData insertion_sort fetched (byCapital "a") = Ok rows
       /\ (forall p,
             visibleRows insertion_sort fetched
                         (handleChangePage (byCapital "a") p)
             = Ok (pageSlice rows (rowsPerPage (byCapital "a")) p))
       /\ pagesUpTo rows (rowsPerPage (byCapital "a"))
            (Z.to_nat (pageCount (Z.of_nat (List.length rows))
                                 (rowsPerPage (byCapital "a"))))
          = rows.
Proof.
  assert (H : 0 < rowsPerPage (byCapital "a")) by reflexivity.
  split; [exact H|].
  exact (pages_cover_rows insertion_sort fetched (byCapital "a") H).
Defined.

Lemma stale_page_shows_nothing_witness :
  page (handleFilterChange (handleChangePage initialState 1) "an" col_name) = 1
  /\ visibleRows insertion_sort fetched
       (handleFilterChange (handleChangePage initialState 1) "an" col_name)
     = Ok [].
Proof.
  destruct (stale_page_shows_nothing insertion_sort fetched
              (handleFilterChange (handleChangePage initialState 1)
                                  "an" col_name))
    as [_ (rows & Hrows & Hempty)].
  split; [reflexivity|]. apply Hempty.
  vm_compute in Hrows. injection Hrows as <-. vm_compute. discriminate.
Defined.

Lemma emptyRows_bounds_witness :
  emptyRows insertion_sort fetched initialState = Ok 2
  /\ exists padding,
       emptyRows insertion_sort fetched (handleChangePage initialState 2)
       = Ok padding
       /\ rowsPerPage (handleChangePage initialState 2) < padding.
Proof.
  split.
  - destruct (emptyRows_bounds insertion_sort fetched initialState)
      as (rows & padding & Hrows & Hpad & _ & _ & Hex & _).
    rewrite Hpad. f_equal. apply Hex; try reflexivity.
    vm_compute in Hrows. injection Hrows as <-. reflexivity.
  - destruct (emptyRows_bounds insertion_sort fetched
                (handleChangePage initialState 2))
      as (rows & padding & Hrows & Hpad & _ & _ & _ & Hout).
    exists padding. split; [exact Hpad|]. apply Hout.
    vm_compute in Hrows. injection Hrows as <-. reflexivity.
Defined.

(** ** Sorting and filtering on rows that lack a value *)

(** C1, at a failing input.  The list is sorted by capital, ascending, and
    the Name filter holds "g".  Antarctica has no capital and compares equal
    to both its neighbours, so the full list is left as it is; filtering
    then leaves Angola (Luanda) before Argentina (Buenos Aires).  Filtering
    first and sorting the two rows that are left puts Argentina first. *)
Theorem sort_before_filter_differs :
  visibleRows insertion_sort fetched (byCapital "g") = Ok [Angola; Argentina]
  /\ spec_visibleRows insertion_sort fetched (byCapital "g")
     = Ok [Argentina; Angola].
Proof. split; vm_compute; reflexivity. Qed.

(** C2, at a failing input.  Angola and Argentina have distinct capitals,
    yet they come out in the same relative order for both directions:
    between them stands Antarctica, whose missing capital compares equal to
    every other.  The same with two rows: a row without capital keeps its
    place next to a row with one, whatever the direction. *)
Theorem stableSort_missing_capital :
  sortKey Angola col_capital = Str "Luanda"
  /\ sortKey Antarctica col_capital = Null
  /\ sortKey Argentina col_capital = Str "Buenos Aires"
  /\ stableSort insertion_sort fetched (getComparator asc col_capital)
     = [Angola; Antarctica; Argentina]
  /\ stableSort insertion_sort fetched (getComparator desc col_capital)
     = [Angola; Antarctica; Argentina]
  /\ stableSort insertion_sort [Angola; Antarctica]
       (getComparator asc col_capital)
     = [Angola; Antarctica]
  /\ stableSort insertion_sort [Angola; Antarctica]
       (getComparator desc col_capital)
     = [Angola; Antarctica].
Proof. repeat split; vm_compute; reflexivity. Qed.

(** *** The same on any engine *)

Ltac eval_comparators :=
  repeat match goal with
  | |- context [getComparator ?o ?k ?a ?b] =>
      let v := eval vm_compute in (getComparator o k a b) in
      change (getComparator o k a b) with v
  end.

(** Any two of the three sample rows are ordered consistently by capital:
    the inconsistency needs all three. *)
Lemma two_rows_consistent (order : Order) (a b : Country) :
  In a fetched -> In b fetched ->
  consistent_on (getComparator order col_capital) [a; b].
Proof.
  intros Ia Ib.
  assert (T : forall x y,
             In x [a; b] -> In y [a; b] ->
             getComparator order col_capital x x = 0
             /\ getComparator order col_capital x y
                = - getComparator order col_capital y x).
  { simpl in Ia, Ib. intros x y Ix Iy. simpl in Ix, Iy.
    destruct Ia as [<-|[<-|[<-|[]]]]; destruct Ib as [<-|[<-|[<-|[]]]];
      destruct Ix as [<-|[<-|[]]]; destruct Iy as [<-|[<-|[]]];
      destruct order; eval_comparators; lia. }
  split.
  - intros x y Ix Iy. destruct (T x y Ix Iy) as [_ E]. lia.
  - intros x y z Ix Iy Iz.
    destruct (T x y Ix Iy) as [Hx _]. destruct (T y z Iy Iz) as [Hy _].
    simpl in Ix, Iy, Iz.
    destruct Ix as [<-|[<-|[]]]; destruct Iy as [<-|[<-|[]]];
      destruct Iz as [<-|[<-|[]]]; lia.
Qed.

(** A row without capital keeps its place next to a row with one, for
    both directions and on any engine that meets the contract. *)
Lemma row_without_capital_keeps_place
    (Array_sort : forall A : Type, (A -> A -> Z) -> list A -> list A)
    (order : Order) :
  Array_sort_contract Array_sort ->
  stableSort Array_sort [Angola; Antarctica] (getComparator order col_capital)
  = [Angola; Antarctica].
Proof.
  intros Hk. rewrite stableSort_insertion_sort; [|exact Hk|].
  - destruct order; vm_compute; reflexivity.
  - apply two_rows_consistent; simpl; auto.
Qed.

Lemma permutation_of_fetched (l : list Country) :
  Permutation fetched l ->
  l = [Angola; Antarctica; Argentina] \/ l = [Angola; Argentina; Antarctica]
  \/ l = [Antarctica; Angola; Argentina] \/ l = [Antarctica; Argentina; Angola]
  \/ l = [Argentina; Angola; Antarctica] \/ l = [Argentina; Antarctica; Angola].
Proof.
  intros Hp.
  pose proof (Permutation_length Hp) as Hlen.
  assert (I1 : In Angola l)
    by (eapply Permutation_in; [exact Hp|simpl; auto]).
  assert (I2 : In Antarctica l)
    by (eapply Permutation_in; [exact Hp|simpl; auto]).
  assert (I3 : In Argentina l)
    by (eapply Permutation_in; [exact Hp|simpl; auto]).
  destruct l as [|x [|y [|z [|w l]]]]; try discriminate Hlen.
  simpl in I1, I2, I3.
  destruct I1 as [E1|[E1|[E1|[]]]]; destruct I2 as [E2|[E2|[E2|[]]]];
    destruct I3 as [E3|[E3|[E3|[]]]]; subst;
    try discriminate; tauto.
Qed.

Lemma visibleRows_byCapital
    (Array_sort : forall A : Type, (A -> A -> Z) -> list A -> list A)
    (text : string) :
  visibleRows Array_sort fetched (byCapital text)
  = Ok (slice (filter (keepsb (filters (byCapital text)))
                 (stableSort Array_sort fetched
                    (getComparator asc col_capital))) 0 5).
Proof.
  unfold visibleRows. rewrite sortedAndFilteredData_eq. reflexivity.
Qed.

Lemma spec_visibleRows_byCapital
    (Array_sort : forall A : Type, (A -> A -> Z) -> list A -> list A)
    (text : string) :
  spec_visibleRows Array_sort fetched (byCapital text)
  = Ok (slice (stableSort Array_sort
                 (filter (keepsb (filters (byCapital text))) fetched)
                 (getComparator asc col_capital)) 0 5).
Proof.
  unfold spec_visibleRows. rewrite spec_filteredAndSortedData_eq. reflexivity.
Qed.

(** With [text] in the Name filter the rows [kept] pass; the engine's
    arrangement [E] of the full list and the sorted [kept] then differ. *)
Ltac differs_on text kept E S2 :=
  exists text;
  rewrite visibleRows_byCapital, spec_visibleRows_byCapital, E;
  change (filter (keepsb (filters (byCapital text))) fetched) with kept;
  rewrite S2 by (simpl; auto); vm_compute; discriminate.

(** Whatever arrangement an engine that meets the contract returns for the
    three rows, one of the Name filters "g", "ar" and "an" shows rows that
    differ from the rows filtered first and sorted afterwards. *)
Lemma every_engine_shows_unsorted_rows
    (Array_sort : forall A : Type, (A -> A -> Z) -> list A -> list A) :
  Array_sort_contract Array_sort ->
  (forall (A : Type) (cmp : A -> A -> Z) (l : list A),
     Permutation l (Array_sort A cmp l)) ->
  exists text,
    visibleRows Array_sort fetched (byCapital text)
    <> spec_visibleRows Array_sort fetched (byCapital text).
Proof.
  intros Hk Hp.
  assert (P : Permutation fetched
                (stableSort Array_sort fetched (getComparator asc col_capital))).
  { rewrite stableSort_unfold.
    rewrite <- (with_index_fst 0 fetched) at 1.
    apply Permutation_map. apply Hp. }
  assert (S2 : forall a b,
             In a fetched -> In b fetched ->
             stableSort Array_sort [a; b] (getComparator asc col_capital)
             = insertion_sort _ (getComparator asc col_capital) [a; b]).
  { intros a b Ia Ib. apply stableSort_insertion_sort; [exact Hk|].
    apply two_rows_consistent; assumption. }
  apply permutation_of_fetched in P.
  destruct P as [E|[E|[E|[E|[E|E]]]]].
  - differs_on "g"%string [Angola; Argentina] E S2.
  - differs_on "g"%string [Angola; Argentina] E S2.
  - differs_on "g"%string [Angola; Argentina] E S2.
  - differs_on "an"%string [Angola; Antarctica] E S2.
  - differs_on "ar"%string [Antarctica; Argentina] E S2.
  - differs_on "ar"%string [Antarctica; Argentina] E S2.
Qed.

(** ** Stability, where no row lacks a value *)

Lemma sorted_stands_before {A : Type} (R : A -> A -> Prop) (x y : A)
      (l : list A) :
  StronglySorted R l -> stands_before x y l -> R x y.
Proof.
  intros Hs (l1 & l2 & l3 & ->).
  induction l1 as [|z l1 IH]; simpl in Hs; inversion Hs as [|? ? Hs' Hz]; subst.
  - rewrite Forall_forall in Hz. apply Hz.
    apply in_or_app. right. left. reflexivity.
  - apply IH. exact Hs'.
Qed.

Lemma two_in_order {A : Type} (x y : A) (l : list A) :
  In x l -> In y l -> x <> y -> stands_before x y l \/ stands_before y x l.
Proof.
  intros Ix Iy Hne. apply in_split in Ix. destruct Ix as (l1 & l2 & ->).
  apply in_app_or in Iy. destruct Iy as [Iy|[Iy|Iy]].
  - right. apply in_split in Iy. destruct Iy as (m1 & m2 & ->).
    exists m1, m2, l2. rewrite <- app_assoc. reflexivity.
  - congruence.
  - left. apply in_split in Iy. destruct Iy as (m1 & m2 & ->).
    exists l1, m1, m2. reflexivity.
Qed.

Lemma with_index_NoDup {A : Type} (k : Z) (l : list A) :
  NoDup (with_index k l).
Proof.
  revert k; induction l as [|x l IH]; intros k; simpl; constructor.
  - intros Hin. apply with_index_lower in Hin. simpl in Hin. lia.
  - apply IH.
Qed.

Lemma stands_before_distinct {A : Type} (x y : A) (l : list A) :
  NoDup l -> stands_before x y l -> x <> y.
Proof.
  intros Hn (l1 & l2 & l3 & ->) E. subst y.
  apply NoDup_remove_2 in Hn. apply Hn.
  apply in_or_app. right. apply in_or_app. right. left. reflexivity.
Qed.

Section Stability.

Variable Array_sort : forall A : Type, (A -> A -> Z) -> list A -> list A.
Hypothesis contract : Array_sort_contract Array_sort.

(** Two rows of the output are in the order of the comparator, and in
    their original order if it ties them. *)
Lemma sortedWithIndex_ordered {A : Type} (array : list A)
      (comparator : A -> A -> Z) (a b : A * Z) :
  consistent_on comparator array ->
  stands_before a b (sortedWithIndex Array_sort array comparator) ->
  comparator (fst a) (fst b) < 0
  \/ (comparator (fst a) (fst b) = 0 /\ snd a < snd b).
Proof.
  intros Hc Hb. unfold sortedWithIndex in Hb.
  destruct (contract _ _ _ (stabilized_consistent comparator 0 array Hc))
    as [Hp Hs].
  pose proof (sorted_stands_before _ a b _ Hs Hb) as Hab.
  assert (Hne : a <> b).
  { eapply stands_before_distinct; [|exact Hb].
    eapply Permutation_NoDup; [exact Hp|apply with_index_NoDup]. }
  assert (Ia : In a (with_index 0 array)).
  { eapply Permutation_in; [symmetry; exact Hp|].
    destruct Hb as (l1 & l2 & l3 & ->). apply in_or_app. right. left.
    reflexivity. }
  assert (Ib : In b (with_index 0 array)).
  { eapply Permutation_in; [symmetry; exact Hp|].
    destruct Hb as (l1 & l2 & l3 & ->). apply in_or_app. right. right.
    apply in_or_app. right. left. reflexivity. }
  unfold before, stabilized in Hab.
  destruct (Z.eqb_spec (comparator (fst a) (fst b)) 0) as [E|E];
    simpl in Hab; [right|left; lia].
  split; [exact E|].
  destruct (Z.eq_dec (snd a) (snd b)) as [Es|Es]; [|lia].
  exfalso. apply Hne. eapply with_index_functional; eassumption.
Qed.

(** Rows with equal sort keys keep their original order, for both
    directions. *)
Lemma stableSort_keeps_ties (order : Order) (orderBy : column)
      (countries : list Country) (a b : Country * Z) :
  no_missing orderBy countries ->
  stands_before a b
    (sortedWithIndex Array_sort countries (getComparator order orderBy)) ->
  sortKey (fst a) orderBy = sortKey (fst b) orderBy ->
  snd a < snd b.
Proof.
  intros Hm Hb Hkey.
  pose proof Hb as Hb'. unfold sortedWithIndex in Hb'.
  destruct (contract _ _ _
              (stabilized_consistent _ 0 countries
                 (getComparator_consistent order orderBy countries Hm)))
    as [Hp _].
  assert (Ia : In (fst a) countries).
  { destruct Hb' as (l1 & l2 & l3 & E).
    apply (with_index_lower 0 countries a).
    eapply Permutation_in; [symmetry; exact Hp|].
    rewrite E. apply in_or_app. right. left. reflexivity. }
  destruct (Hm _ Ia) as [sa Ha].
  assert (Hcmp : getComparator order orderBy (fst a) (fst b) = 0).
  { rewrite (getComparator_strings order orderBy _ _ sa sa Ha);
      [|congruence].
    rewrite string_compare_refl. destruct order; reflexivity. }
  destruct (sortedWithIndex_ordered countries _ a b
              (getComparator_consistent order orderBy countries Hm) Hb)
    as [H|[_ H]]; [lia|exact H].
Qed.

(** Rows with distinct sort keys come out in opposite orders for the two
    directions. *)
Lemma stableSort_direction_reverses (orderBy : column)
      (countries : list Country) (a b : Country * Z) :
  no_missing orderBy countries ->
  In a (with_index 0 countries) -> In b (with_index 0 countries) ->
  sortKey (fst a) orderBy <> sortKey (fst b) orderBy ->
  stands_before a b
    (sortedWithIndex Array_sort countries (getComparator asc orderBy))
  <-> stands_before b a
        (sortedWithIndex Array_sort countries (getComparator desc orderBy)).
Proof.
  intros Hm Ia Ib Hkey.
  assert (Hne : a <> b) by congruence.
  destruct (Hm _ (proj2 (with_index_lower 0 countries a Ia))) as [sa Ha].
  destruct (Hm _ (proj2 (with_index_lower 0 countries b Ib))) as [sb Hb].
  assert (Hs : String.compare sa sb <> Eq).
  { intros E. apply String.compare_eq_iff in E. congruence. }
  pose proof (getComparator_strings asc orderBy _ _ sa sb Ha Hb) as Aab.
  pose proof (getComparator_strings asc orderBy _ _ sb sa Hb Ha) as Aba.
  pose proof (getComparator_strings desc orderBy _ _ sa sb Ha Hb) as Dab.
  pose proof (getComparator_strings desc orderBy _ _ sb sa Hb Ha) as Dba.
  simpl in Aab, Aba, Dab, Dba.
  rewrite (String.compare_antisym sa sb) in *.
  assert (placed : forall order,
            In a (sortedWithIndex Array_sort countries
                    (getComparator order orderBy))
            /\ In b (sortedWithIndex Array_sort countries
                       (getComparator order orderBy))).
  { intros order. unfold sortedWithIndex.
    destruct (contract _ _ _
                (stabilized_consistent _ 0 countries
                   (getComparator_consistent order orderBy countries Hm)))
      as [Hp _].
    split; (eapply Permutation_in; [exact Hp|assumption]). }
  split; intros H.
  - destruct (two_in_order b a _ (proj2 (placed desc)) (proj1 (placed desc)))
      as [K|K]; [congruence|exact K|].
    apply (sortedWithIndex_ordered countries) in H;
      [|apply getComparator_consistent; exact Hm].
    apply (sortedWithIndex_ordered countries) in K;
      [|apply getComparator_consistent; exact Hm].
    exfalso. destruct (String.compare sb sa); simpl in *;
      try congruence; lia.
  - destruct (two_in_order a b _ (proj1 (placed asc)) (proj2 (placed asc)))
      as [K|K]; [congruence|exact K|].
    apply (sortedWithIndex_ordered countries) in H;
      [|apply getComparator_consistent; exact Hm].
    apply (sortedWithIndex_ordered countries) in K;
      [|apply getComparator_consistent; exact Hm].
    exfalso. destruct (String.compare sb sa); simpl in *;
      try congruence; lia.
Qed.

End Stability.

(** * Further properties of the code *)

(** ** The comparators *)

Lemma string_ltb_asym (a b : string) :
  String.ltb a b = true -> String.ltb b a = false.
Proof.
  unfold String.ltb. rewrite (String.compare_antisym a b).
  destruct (String.compare b a); simpl; congruence.
Qed.

Lemma less_than_asym (x y : value) :
  less_than x y = true -> less_than y x = false.
Proof.
  unfold less_than.
  destruct (ToPrimitive x) as [| |a]; destruct (ToPrimitive y) as [| |b];
    try congruence.
  - destruct (JS.StringToNumber b); congruence.
  - destruct (JS.StringToNumber a); congruence.
  - apply string_ltb_asym.
Qed.

(** Swapping the two rows negates the comparator, for every column and
    direction and also for rows that lack a value: what a missing value
    breaks is transitivity only. *)
Theorem getComparator_antisymmetric (order : Order) (orderBy : column)
        (a b : Country) :
  getComparator order orderBy a b = - getComparator order orderBy b a.
Proof.
  assert (D : descendingComparator a b orderBy
              = - descendingComparator b a orderBy).
  { unfold descendingComparator, greater_than.
    pose proof (less_than_asym (prop b orderBy) (prop a orderBy)) as H1.
    pose proof (less_than_asym (prop a orderBy) (prop b orderBy)) as H2.
    destruct (less_than (prop b orderBy) (prop a orderBy));
      destruct (less_than (prop a orderBy) (prop b orderBy));
      try reflexivity.
    specialize (H1 eq_refl). discriminate. }
  destruct order; simpl; rewrite D; lia.
Qed.

(** A row whose value in the sort column is undefined ties with every
    row, and so does a row whose value is null against a row whose value is
    missing or is a string that reads as no number or as zero. *)
Theorem getComparator_missing_ties (order : Order) (orderBy : column)
        (a b : Country) :
  sortKey a orderBy = Undefined
  \/ (sortKey a orderBy = Null
      /\ forall s, sortKey b orderBy = Str s ->
                   JS.StringToNumber s = JS.NaN
                   \/ JS.StringToNumber s = JS.Zero) ->
  getComparator order orderBy a b = 0 /\ getComparator order orderBy b a = 0.
Proof.
  intros H.
  assert (L : less_than (prop a orderBy) (prop b orderBy) = false
              /\ less_than (prop b orderBy) (prop a orderBy) = false).
  { unfold sortKey in H. unfold less_than.
    destruct H as [->|[-> Hs]].
    - destruct (ToPrimitive (prop b orderBy)); split; reflexivity.
    - destruct (ToPrimitive (prop b orderBy)) as [| |s]; try (split; reflexivity).
      destruct (Hs s eq_refl) as [-> | ->]; split; reflexivity. }
  destruct L as [L1 L2].
  unfold getComparator, descendingComparator, greater_than.
  destruct order; rewrite L1, L2; split; reflexivity.
Qed.

Lemma getComparator_missing_ties_witness :
  sortKey Antarctica col_capital = Null
  /\ getComparator asc col_capital Antarctica Angola = 0
  /\ getComparator asc col_capital Angola Antarctica = 0.
Proof.
  split; [reflexivity|].
  apply (getComparator_missing_ties asc col_capital Antarctica Angola).
  right. split; [reflexivity|].
  intros s Hs. injection Hs as <-. left. vm_compute. reflexivity.
Defined.

(** *** The languages column *)

Lemma string_compare_app (p s t : string) :
  String.compare (p ++ s) (p ++ t) = String.compare s t.
Proof.
  induction p as [|c p IH]; simpl; [reflexivity|].
  unfold Ascii.compare. rewrite N.compare_refl. exact IH.
Qed.

Lemma languagesKey_S (n : nat) :
  languagesKey (S n) = ("[object Object]" ++ moreObjects n)%string.
Proof.
  unfold languagesKey, JS.join.
  induction n as [|n IH]; [reflexivity|].
  change (repeat "[object Object]"%string (S (S n)))
    with ("[object Object]"%string :: repeat "[object Object]"%string (S n)).
  change (String.concat "," ("[object Object]"%string
                             :: repeat "[object Object]"%string (S n)))
    with ("[object Object]"
          ++ "," ++ String.concat "," (repeat "[object Object]"%string (S n)))%string.
  rewrite IH. reflexivity.
Qed.

Lemma moreObjects_compare (n m : nat) :
  String.compare (moreObjects n) (moreObjects m) = Nat.compare n m.
Proof.
  revert m; induction n as [|n IH]; intros [|m]; try reflexivity.
  change (moreObjects (S n))
    with ((("," ++ "[object Object]") ++ moreObjects n)%string).
  change (moreObjects (S m))
    with ((("," ++ "[object Object]") ++ moreObjects m)%string).
  rewrite string_compare_app, IH. reflexivity.
Qed.

Lemma languagesKey_compare (n m : nat) :
  String.compare (languagesKey n) (languagesKey m) = Nat.compare n m.
Proof.
  destruct n as [|n]; destruct m as [|m];
    rewrite ?languagesKey_S; try reflexivity.
  rewrite string_compare_app. exact (moreObjects_compare n m).
Qed.

Lemma sortKey_languages (country : Country) :
  sortKey country col_languages
  = Str (languagesKey (List.length (languages country))).
Proof.
  unfold sortKey, languagesKey. simpl. rewrite map_const. reflexivity.
Qed.

(** Sorting by the languages column sorts by the number of languages:
    the comparator reads each list as text, one object text per language,
    so the language names play no part and rows with equally many
    languages tie. *)
Theorem getComparator_languages_counts (order : Order) (a b : Country) :
  getComparator order col_languages a b
  = match order with
    | asc => Z_of_comparison
               (Nat.compare (List.length (languages a))
                            (List.length (languages b)))
    | desc => Z_of_comparison
                (Nat.compare (List.length (languages b))
                             (List.length (languages a)))
    end.
Proof.
  rewrite (getComparator_strings order col_languages a b _ _
             (sortKey_languages a) (sortKey_languages b)).
  rewrite !languagesKey_compare. reflexivity.
Qed.

(** ** [stableSort] on rows that all have a value *)

Lemma insertion_sort_of_sorted {A : Type} (cmp : A -> A -> Z) (l : list A) :
  StronglySorted (before cmp) l -> insertion_sort A cmp l = l.
Proof.
  induction 1 as [|x l Hs IH Hx]; simpl; [reflexivity|].
  rewrite IH. destruct l as [|y l]; simpl; [reflexivity|].
  inversion Hx as [|? ? Hy _]; subst. unfold before in Hy.
  apply Z.leb_le in Hy. rewrite Hy. reflexivity.
Qed.

Lemma no_missing_permutation (orderBy : column) (l l' : list Country) :
  Permutation l l' -> no_missing orderBy l -> no_missing orderBy l'.
Proof.
  intros Hp Hm country Hin. apply Hm.
  eapply Permutation_in; [symmetry; exact Hp|exact Hin].
Qed.

Section SortsOnValues.

Variable Array_sort : forall A : Type, (A -> A -> Z) -> list A -> list A.
Hypothesis contract : Array_sort_contract Array_sort.

(** When no row lacks a value in the column, [stableSort] returns the
    rows of the input, each as often as it occurs there, arranged so that
    the comparator puts no row before an earlier one. *)
Theorem stableSort_sorts (order : Order) (orderBy : column)
        (countries : list Country) :
  no_missing orderBy countries ->
  Permutation countries
    (stableSort Array_sort countries (getComparator order orderBy))
  /\ StronglySorted (before (getComparator order orderBy))
       (stableSort Array_sort countries (getComparator order orderBy)).
Proof.
  intros Hm.
  pose proof (getComparator_consistent order orderBy countries Hm) as Hc.
  rewrite (stableSort_insertion_sort Array_sort countries _ contract Hc).
  split; [apply insertion_sort_perm|apply insertion_sort_sorted; exact Hc].
Qed.

(** Sorting what is sorted changes nothing. *)
Theorem stableSort_idempotent (order : Order) (orderBy : column)
        (countries : list Country) :
  no_missing orderBy countries ->
  stableSort Array_sort
    (stableSort Array_sort countries (getComparator order orderBy))
    (getComparator order orderBy)
  = stableSort Array_sort countries (getComparator order orderBy).
Proof.
  intros Hm.
  pose proof (getComparator_consistent order orderBy countries Hm) as Hc.
  rewrite (stableSort_insertion_sort Array_sort countries _ contract Hc).
  rewrite stableSort_insertion_sort; [|exact contract|].
  - apply insertion_sort_of_sorted. apply insertion_sort_sorted. exact Hc.
  - apply getComparator_consistent.
    eapply no_missing_permutation; [apply insertion_sort_perm|exact Hm].
Qed.

(** When no row lacks a value in the sort column, the rows the page
    derives by sorting first and filtering afterwards are the rows filtered
    first and sorted afterwards, and so are the rows of the current page. *)
Theorem derived_rows_filter_first (countries : list Country) (st : State) :
  no_missing (orderBy st) countries ->
  sortedAndFilteredData Array_sort countries st
  = spec_filteredAndSortedData Array_sort countries st
  /\ visibleRows Array_sort countries st
     = spec_visibleRows Array_sort countries st.
Proof.
  intros Hm. split.
  - apply sort_filter_commute; assumption.
  - apply visibleRows_spec; assumption.
Qed.

End SortsOnValues.

Lemma stableSort_sorts_witness :
  no_missing col_name fetched
  /\ Permutation fetched
       (stableSort insertion_sort fetched (getComparator desc col_name))
  /\ StronglySorted (before (getComparator desc col_name))
       (stableSort insertion_sort fetched (getComparator desc col_name)).
Proof.
  assert (H : no_missing col_name fetched)
    by (apply no_missing_total; left; reflexivity).
  split; [exact H|].
  exact (stableSort_sorts insertion_sort insertion_sort_contract
           desc col_name fetched H).
Defined.

Lemma stableSort_idempotent_witness :
  no_missing col_languages fetched
  /\ stableSort insertion_sort
       (stableSort insertion_sort fetched (getComparator asc col_languages))
       (getComparator asc col_languages)
     = stableSort insertion_sort fetched (getComparator asc col_languages).
Proof.
  assert (H : no_missing col_languages fetched)
    by (apply no_missing_total; right; right; reflexivity).
  split; [exact H|].
  exact (stableSort_idempotent insertion_sort insertion_sort_contract
           asc col_languages fetched H).
Defined.

Lemma derived_rows_filter_first_witness :
  no_missing (orderBy (handleFilterChange initialState "g" col_name)) fetched
  /\ sortedAndFilteredData insertion_sort fetched
       (handleFilterChange initialState "g" col_name)
     = spec_filteredAndSortedData insertion_sort fetched
         (handleFilterChange initialState "g" col_name)
  /\ visibleRows insertion_sort fetched
       (handleFilterChange initialState "g" col_name)
     = spec_visibleRows insertion_sort fetched
         (handleFilterChange initialState "g" col_name).
Proof.
  assert (H : no_missing
                (orderBy (handleFilterChange initialState "g" col_name))
                fetched)
    by (apply no_missing_total; left; reflexivity).
  split; [exact H|].
  exact (derived_rows_filter_first insertion_sort insertion_sort_contract
           fetched (handleFilterChange initialState "g" col_name) H).
Defined.

Lemma stableSort_keeps_ties_witness :
  no_missing col_name [Angola; Argentina; Angola]
  /\ stands_before (Angola, 0) (Angola, 2)
       (sortedWithIndex insertion_sort [Angola; Argentina; Angola]
          (getComparator desc col_name))
  /\ snd (Angola, 0) < snd (Angola, 2).
Proof.
  assert (H : no_missing col_name [Angola; Argentina; Angola])
    by (apply no_missing_total; left; reflexivity).
  assert (B : stands_before (Angola, 0) (Angola, 2)
                (sortedWithIndex insertion_sort [Angola; Argentina; Angola]
                   (getComparator desc col_name))).
  { exists [(Argentina, 1)], [], []. vm_compute. reflexivity. }
  split; [exact H|]. split; [exact B|].
  exact (stableSort_keeps_ties insertion_sort insertion_sort_contract
           desc col_name [Angola; Argentina; Angola] (Angola, 0) (Angola, 2)
           H B eq_refl).
Defined.

Lemma stableSort_direction_reverses_witness :
  no_missing col_name fetched
  /\ sortKey Angola col_name <> sortKey Argentina col_name
  /\ (stands_before (Angola, 0) (Argentina, 2)
        (sortedWithIndex insertion_sort fetched (getComparator asc col_name))
      <-> stands_before (Argentina, 2) (Angola, 0)
            (sortedWithIndex insertion_sort fetched
               (getComparator desc col_name))).
Proof.
  assert (H : no_missing col_name fetched)
    by (apply no_missing_total; left; reflexivity).
  assert (K : sortKey Angola col_name <> sortKey Argentina col_name)
    by discriminate.
  split; [exact H|]. split; [exact K|].
  apply (stableSort_direction_reverses insertion_sort insertion_sort_contract
           col_name fetched (Angola, 0) (Argentina, 2) H);
    [simpl; auto | simpl; auto | exact K].
Defined.

(** ** The handlers *)

(** A sort request on the current sort column keeps the column and flips
    the direction, so two such requests in a row restore the state. *)
Theorem handleRequestSort_same_column (st : State) (property : column) :
  orderBy st = property ->
  orderBy (handleRequestSort st property) = property
  /\ order (handleRequestSort st property) = opposite (order st)
  /\ handleRequestSort (handleRequestSort st property) property = st.
Proof.
  intros <-. destruct st as [o k p r f]. unfold handleRequestSort. simpl.
  destruct (column_eq_dec k k) as [_|N]; [|contradiction].
  destruct o; simpl; repeat split; reflexivity.
Qed.

Lemma handleRequestSort_same_column_witness :
  orderBy initialState = col_name
  /\ order (handleRequestSort initialState col_name) = desc
  /\ handleRequestSort (handleRequestSort initialState col_name) col_name
     = initialState.
Proof.
  destruct (handleRequestSort_same_column initialState col_name eq_refl)
    as (_ & Ho & Hs).
  split; [reflexivity|]. split; [exact Ho|exact Hs].
Defined.

Lemma slice_from_start {A : Type} (l : list A) (size : Z) :
  0 <= size -> slice l 0 size = firstn (Z.to_nat size) l.
Proof.
  intros H. rewrite <- (Z2Nat.id size) at 1 by exact H.
  change 0 with (Z.of_nat 0). rewrite slice_nat.
  rewrite Nat.sub_0_r. reflexivity.
Qed.

Lemma slice_length {A : Type} (l : list A) (start size : Z) :
  0 <= start -> 0 <= size ->
  Z.of_nat (List.length (slice l start (start + size)))
  = Z.max 0 (Z.min size (Z.of_nat (List.length l) - start)).
Proof.
  intros Hs Hz.
  rewrite <- (Z2Nat.id start) at 1 2 by exact Hs.
  rewrite <- (Z2Nat.id size) at 1 by exact Hz.
  rewrite <- Nat2Z.inj_add, slice_nat, length_firstn, length_skipn. lia.
Qed.

(** ** Rows per page *)

Section RowsPerPage.

Variable Array_sort : forall A : Type, (A -> A -> Z) -> list A -> list A.

(** A change of the page size goes back to the first page: whatever page
    was shown, the table then shows the first [value] rows of the filtered
    and sorted list, and the padding lies between 0 and [value]. *)
Theorem handleChangeRowsPerPage_first_page
        (countries : list Country) (st : State) (value : Z) :
  0 <= value ->
  exists rows padding,
    sortedAndFilteredData Array_sort countries st = Ok rows
    /\ visibleRows Array_sort countries (handleChangeRowsPerPage st value)
       = Ok (firstn (Z.to_nat value) rows)
    /\ emptyRows Array_sort countries (handleChangeRowsPerPage st value)
       = Ok padding
    /\ 0 <= padding <= value.
Proof.
  intros Hv. unfold visibleRows, emptyRows.
  rewrite !sortedAndFilteredData_eq. simpl.
  eexists. eexists. split; [reflexivity|].
  rewrite slice_from_start by exact Hv.
  split; [reflexivity|]. split; [reflexivity|]. lia.
Qed.

(** On a page that starts within the list, the rows shown and the padding
    add up to the page size: the table keeps its height. *)
Theorem visible_rows_and_padding (countries : list Country) (st : State) :
  0 <= page st -> 0 <= rowsPerPage st ->
  exists rows visible padding,
    sortedAndFilteredData Array_sort countries st = Ok rows
    /\ visibleRows Array_sort countries st = Ok visible
    /\ emptyRows Array_sort countries st = Ok padding
    /\ Z.of_nat (List.length visible) <= rowsPerPage st
    /\ (page st * rowsPerPage st <= Z.of_nat (List.length rows) ->
        Z.of_nat (List.length visible) + padding = rowsPerPage st).
Proof.
  intros Hp Hr. unfold visibleRows, emptyRows.
  rewrite !sortedAndFilteredData_eq. simpl.
  set (rows := filter _ _).
  eexists. eexists. eexists. split; [reflexivity|].
  split; [reflexivity|]. split; [reflexivity|].
  assert (H0 : 0 <= page st * rowsPerPage st) by nia.
  rewrite (slice_length rows _ _ H0 Hr).
  split; [|intros Hin]; lia.
Qed.

(** The row at position [i] of page [p] is the row at position
    [p * rowsPerPage + i] of the filtered and sorted list. *)
Theorem pageSlice_row {A : Type} (rows : list A) (rowsPerPage p : Z) (i : nat) :
  0 <= p -> 0 <= rowsPerPage -> Z.of_nat i < rowsPerPage ->
  nth_error (pageSlice rows rowsPerPage p) i
  = nth_error rows (Z.to_nat (p * rowsPerPage) + i).
Proof.
  intros Hp Hr Hi. unfold pageSlice.
  assert (H0 : 0 <= p * rowsPerPage) by nia.
  set (start := p * rowsPerPage) in *. clearbody start.
  rewrite <- (Z2Nat.id start) at 1 2 by exact H0.
  rewrite <- (Z2Nat.id rowsPerPage) at 1 by exact Hr.
  rewrite <- Nat2Z.inj_add, slice_nat, nth_error_firstn, nth_error_skipn.
  destruct (Nat.ltb_spec i (Z.to_nat start + Z.to_nat rowsPerPage
                            - Z.to_nat start));
    [reflexivity|lia].
Qed.

End RowsPerPage.

Lemma handleChangeRowsPerPage_first_page_witness :
  0 <= 10
  /\ exists rows padding,
       sortedAndFilteredData insertion_sort fetched
         (handleChangePage initialState 3) = Ok rows
       /\ visibleRows insertion_sort fetched
            (handleChangeRowsPerPage (handleChangePage initialState 3) 10)
          = Ok (firstn (Z.to_nat 10) rows)
       /\ emptyRows insertion_sort fetched
            (handleChangeRowsPerPage (handleChangePage initialState 3) 10)
          = Ok padding
       /\ 0 <= padding <= 10.
Proof.
  assert (H : 0 <= 10) by lia.
  split; [exact H|].
  exact (handleChangeRowsPerPage_first_page insertion_sort fetched
           (handleChangePage initialState 3) 10 H).
Defined.

Lemma visible_rows_and_padding_witness :
  0 <= page initialState /\ 0 <= rowsPerPage initialState
  /\ exists rows visible padding,
       sortedAndFilteredData insertion_sort fetched initialState = Ok rows
       /\ visibleRows insertion_sort fetched initialState = Ok visible
       /\ emptyRows insertion_sort fetched initialState = Ok padding
       /\ Z.of_nat (List.length visible) <= rowsPerPage initialState
       /\ (page initialState * rowsPerPage initialState
           <= Z.of_nat (List.length rows) ->
           Z.of_nat (List.length visible) + padding
           = rowsPerPage initialState).
Proof.
  assert (Hp : 0 <= page initialState) by (simpl; lia).
  assert (Hr : 0 <= rowsPerPage initialState) by (simpl; lia).
  split; [exact Hp|]. split; [exact Hr|].
  exact (visible_rows_and_padding insertion_sort fetched initialState Hp Hr).
Defined.

Lemma pageSlice_row_witness :
  0 <= 1 /\ 0 <= 2 /\ Z.of_nat 0 < 2
  /\ nth_error (pageSlice fetched 2 1) 0
     = nth_error fetched (Z.to_nat (1 * 2) + 0).
Proof.
  assert (H1 : 0 <= 1) by lia.
  assert (H2 : 0 <= 2) by lia.
  assert (H3 : Z.of_nat 0 < 2) by (simpl; lia).
  split; [exact H1|]. split; [exact H2|]. split; [exact H3|].
  exact (pageSlice_row fetched 2 1 0 H1 H2 H3).
Defined.

(** ** The filter state *)

Lemma lookup_spread_set_same (filters : Filters) (key : column) (v : string) :
  lookup (spread_set filters key v) key = Prim (Str v).
Proof.
  induction filters as [|[k old] rest IH]; simpl.
  - destruct (column_eq_dec key key); [reflexivity|contradiction].
  - destruct (column_eq_dec k key) as [E|N]; simpl.
    + destruct (column_eq_dec k key); [reflexivity|contradiction].
    + destruct (column_eq_dec k key); [contradiction|exact IH].
Qed.

Lemma lookup_spread_set_other (filters : Filters) (key other : column)
      (v : string) :
  other <> key -> lookup (spread_set filters key v) other = lookup filters other.
Proof.
  intros Hne. induction filters as [|[k old] rest IH]; simpl.
  - destruct (column_eq_dec key other); [congruence|reflexivity].
  - destruct (column_eq_dec k key) as [E|N]; simpl.
    + destruct (column_eq_dec k other); [congruence|reflexivity].
    + destruct (column_eq_dec k other); [reflexivity|exact IH].
Qed.

Lemma keys_spread_set_present (filters : Filters) (key : column) (v : string) :
  In key (Object_keys filters) ->
  Object_keys (spread_set filters key v) = Object_keys filters.
Proof.
  induction filters as [|[k old] rest IH]; simpl; [tauto|].
  intros H. destruct (column_eq_dec k key) as [E|N]; simpl; [reflexivity|].
  f_equal. apply IH. destruct H; [contradiction|assumption].
Qed.

Lemma keys_spread_set_absent (filters : Filters) (key : column) (v : string) :
  ~ In key (Object_keys filters) ->
  Object_keys (spread_set filters key v) = Object_keys filters ++ [key].
Proof.
  induction filters as [|[k old] rest IH]; simpl; [reflexivity|].
  intros H. destruct (column_eq_dec k key) as [E|N]; simpl; [tauto|].
  f_equal. apply IH. tauto.
Qed.

(** After text is typed into the filter of a column, the filter state
    holds that text for the column and what it held before for every other
    column. *)
Theorem handleFilterChange_lookup (st : State) (text : string)
        (filterKey : column) :
  lookup (filters (handleFilterChange st text filterKey)) filterKey
  = Prim (Str text)
  /\ forall other, other <> filterKey ->
       lookup (filters (handleFilterChange st text filterKey)) other
       = lookup (filters st) other.
Proof.
  simpl. split.
  - apply lookup_spread_set_same.
  - intros other H. apply lookup_spread_set_other. exact H.
Qed.

(** Typing into a filter keeps the keys of the filter state in their
    order: a key that is present keeps its place, a new key goes to the end,
    and no key comes to stand twice. *)
Theorem handleFilterChange_keys (st : State) (text : string)
        (filterKey : column) :
  (In filterKey (Object_keys (filters st)) ->
   Object_keys (filters (handleFilterChange st text filterKey))
   = Object_keys (filters st))
  /\ (~ In filterKey (Object_keys (filters st)) ->
      Object_keys (filters (handleFilterChange st text filterKey))
      = Object_keys (filters st) ++ [filterKey])
  /\ (NoDup (Object_keys (filters st)) ->
      NoDup (Object_keys (filters (handleFilterChange st text filterKey)))).
Proof.
  simpl. split; [apply keys_spread_set_present|].
  split; [apply keys_spread_set_absent|].
  intros Hn. destruct (in_dec column_eq_dec filterKey (Object_keys (filters st)))
    as [Hin|Hout].
  - rewrite keys_spread_set_present by exact Hin. exact Hn.
  - rewrite keys_spread_set_absent by exact Hout.
    apply NoDup_app; [exact Hn | constructor; [simpl; tauto|constructor] |].
    intros x Hx [<-|[]]. contradiction.
Qed.

Lemma handleFilterChange_keys_witness :
  ~ In col_languages (Object_keys (filters initialState))
  /\ NoDup (Object_keys (filters initialState))
  /\ Object_keys (filters (handleFilterChange initialState "en" col_languages))
     = [col_name; col_capital; col_currency; col_languages]
  /\ NoDup (Object_keys
              (filters (handleFilterChange initialState "en" col_languages))).
Proof.
  assert (Hout : ~ In col_languages (Object_keys (filters initialState))).
  { simpl. intros [H|[H|[H|[]]]]; discriminate. }
  assert (Hn : NoDup (Object_keys (filters initialState))).
  { simpl. repeat constructor; simpl; intuition discriminate. }
  destruct (handleFilterChange_keys initialState "en" col_languages)
    as (_ & Habsent & Hnodup).
  split; [exact Hout|]. split; [exact Hn|].
  split; [exact (Habsent Hout)|exact (Hnodup Hn)].
Defined.

(** In every state the page can reach, the page index is not negative, the
    page size is one of the sizes on offer, and the filter state holds a
    text for name, capital and currency under keys that are all distinct. *)
Theorem reachable_invariant (st : State) :
  reachable st ->
  0 <= page st
  /\ In (rowsPerPage st) rowsPerPageOptions
  /\ NoDup (Object_keys (filters st))
  /\ incl [col_name; col_capital; col_currency] (Object_keys (filters st)).
Proof.
  induction 1 as [|st e Hr IH Ho].
  - simpl. split; [lia|]. split; [auto|].
    split; [repeat constructor; simpl; intuition discriminate|].
    intros k Hk. exact Hk.
  - destruct IH as (Hp & Hs & Hn & Hi).
    destruct e as [property|newPage|value|text filterKey]; simpl in *;
      try (repeat split; solve [assumption | lia | auto]).
    destruct (handleFilterChange_keys st text filterKey) as (Hin & Hout & Hk).
    simpl in Hin, Hout, Hk.
    split; [exact Hp|]. split; [exact Hs|]. split; [exact (Hk Hn)|].
    destruct (in_dec column_eq_dec filterKey (Object_keys (filters st)))
      as [Y|N].
    + rewrite (Hin Y). exact Hi.
    + rewrite (Hout N). intros k Hkin. apply in_or_app. left. apply Hi.
      exact Hkin.
Qed.

Lemma reachable_invariant_witness :
  reachable (byCapital "g")
  /\ 0 <= page (byCapital "g")
  /\ In (rowsPerPage (byCapital "g")) rowsPerPageOptions
  /\ NoDup (Object_keys (filters (byCapital "g")))
  /\ incl [col_name; col_capital; col_currency]
          (Object_keys (filters (byCapital "g"))).
Proof.
  assert (H : reachable (byCapital "g")).
  { apply (reachable_step _ (FilterChange "g" col_name)); [|exact I].
    apply (reachable_step _ (RequestSort col_capital)); [|exact I].
    apply reachable_initial. }
  split; [exact H|]. exact (reachable_invariant (byCapital "g") H).
Defined.

(** ** The filter and the rows it leaves *)

Lemma lower_unit_idempotent (c : ascii) :
  JS.lower_unit (JS.lower_unit c) = JS.lower_unit c.
Proof.
  destruct c as [[|] [|] [|] [|] [|] [|] [|] [|]]; vm_compute; reflexivity.
Qed.

Lemma toLowerCase_idempotent (s : string) :
  JS.toLowerCase (JS.toLowerCase s) = JS.toLowerCase s.
Proof.
  induction s as [|c s IH]; simpl; [reflexivity|].
  rewrite lower_unit_idempotent, IH. reflexivity.
Qed.

Lemma matchesb_lower (country : Country) (key : column) (pattern : string) :
  matchesb country key (JS.toLowerCase pattern) = matchesb country key pattern.
Proof.
  unfold matchesb. rewrite toLowerCase_idempotent. reflexivity.
Qed.

Lemma eqb_empty_lower (s : string) :
  (JS.toLowerCase s =? "")%string = (s =? "")%string.
Proof. destruct s; reflexivity. Qed.

Lemma keys_spread_set_value (filters : Filters) (key : column) (v w : string) :
  Object_keys (spread_set filters key v) = Object_keys (spread_set filters key w).
Proof.
  induction filters as [|[k old] rest IH]; simpl; [reflexivity|].
  destruct (column_eq_dec k key); simpl; [reflexivity|]. f_equal. exact IH.
Qed.

Lemma filter_narrow {A : Type} (f g : A -> bool) (l : list A) :
  (forall x, g x = true -> f x = true) ->
  filter g l = filter g (filter f l).
Proof.
  intros H. induction l as [|x l IH]; simpl; [reflexivity|].
  destruct (g x) eqn:Eg.
  - rewrite (H x Eg). simpl. rewrite Eg, IH. reflexivity.
  - destruct (f x); simpl; [rewrite Eg|]; exact IH.
Qed.

Lemma keepsb_narrow (filters : Filters) (key : column) (text : string)
      (country : Country) :
  lookup filters key = Prim (Str "") \/ ~ In key (Object_keys filters) ->
  keepsb (spread_set filters key text) country = true ->
  keepsb filters country = true.
Proof.
  intros Hold. unfold keepsb. rewrite !forallb_forall. intros H k Hk.
  destruct (column_eq_dec k key) as [->|Hne].
  - destruct Hold as [E|N]; [rewrite E; reflexivity|contradiction].
  - rewrite <- (lookup_spread_set_other filters key k text Hne). apply H.
    destruct (in_dec column_eq_dec key (Object_keys filters)) as [Y|N].
    + rewrite keys_spread_set_present by exact Y. exact Hk.
    + rewrite keys_spread_set_absent by exact N. apply in_or_app. left.
      exact Hk.
Qed.

Lemma forallb_pointwise {A : Type} (f g : A -> bool) (l : list A) :
  (forall x, f x = g x) -> forallb f l = forallb g l.
Proof.
  intros H. induction l as [|x l IH]; simpl; [reflexivity|].
  rewrite H, IH. reflexivity.
Qed.

Section FilteredRows.

Variable Array_sort : forall A : Type, (A -> A -> Z) -> list A -> list A.

(** While every filter text is empty, no row is removed: the derived rows
    are the sorted list. *)
Theorem empty_filters_keep_all (countries : list Country) (st : State) :
  (forall key, In key (Object_keys (filters st)) ->
               lookup (filters st) key = Prim (Str "")) ->
  sortedAndFilteredData Array_sort countries st
  = Ok (stableSort Array_sort countries
          (getComparator (order st) (orderBy st))).
Proof.
  intros H. rewrite sortedAndFilteredData_eq. f_equal.
  apply forallb_filter_id. apply forallb_forall. intros country _.
  unfold keepsb. apply forallb_forall. intros key Hk.
  rewrite (H key Hk). reflexivity.
Qed.

(** On an engine whose sort rearranges its input, the derived rows are
    the fetched rows that match every non-empty filter, and no others; so
    they are at most as many as the fetched rows. *)
Theorem filtered_rows_are_the_matching_rows
        (countries : list Country) (st : State) :
  (forall (A : Type) (cmp : A -> A -> Z) (l : list A),
     Permutation l (Array_sort A cmp l)) ->
  exists rows,
    sortedAndFilteredData Array_sort countries st = Ok rows
    /\ (List.length rows <= List.length countries)%nat
    /\ forall row,
         In row rows
         <-> In row countries
             /\ forall key pattern,
                  active (filters st) key pattern ->
                  spec_matches row key pattern.
Proof.
  intros Hp. rewrite sortedAndFilteredData_eq.
  set (sorted := stableSort _ _ _).
  assert (P : Permutation countries sorted).
  { unfold sorted. rewrite stableSort_unfold.
    rewrite <- (with_index_fst 0 countries) at 1.
    apply Permutation_map. apply Hp. }
  eexists. split; [reflexivity|]. split.
  - rewrite (Permutation_length P). apply filter_length_le.
  - intros row. rewrite filter_In, keepsb_iff. split.
    + intros [Hin Hm]. split; [|exact Hm].
      eapply Permutation_in; [symmetry; exact P|exact Hin].
    + intros [Hin Hm]. split; [|exact Hm].
      eapply Permutation_in; [exact P|exact Hin].
Qed.

(** Text typed into a filter that was empty or not yet used only removes
    rows: the new rows are the old rows that pass some test, in the same
    order. *)
Theorem typing_into_empty_filter_narrows
        (countries : list Country) (st : State) (text : string)
        (filterKey : column) :
  lookup (filters st) filterKey = Prim (Str "")
  \/ ~ In filterKey (Object_keys (filters st)) ->
  exists rows rows' keep,
    sortedAndFilteredData Array_sort countries st = Ok rows
    /\ sortedAndFilteredData Array_sort countries
         (handleFilterChange st text filterKey) = Ok rows'
    /\ rows' = filter keep rows.
Proof.
  intros Hold. rewrite !sortedAndFilteredData_eq. simpl.
  eexists. eexists.
  exists (keepsb (spread_set (filters st) filterKey text)).
  split; [reflexivity|]. split; [reflexivity|].
  apply filter_narrow. intros country. apply keepsb_narrow. exact Hold.
Qed.

(** The case of the filter text plays no part: a text and its lower-case
    form leave the same rows. *)
Theorem filter_text_case_is_ignored
        (countries : list Country) (st : State) (text : string)
        (filterKey : column) :
  sortedAndFilteredData Array_sort countries
    (handleFilterChange st (JS.toLowerCase text) filterKey)
  = sortedAndFilteredData Array_sort countries
      (handleFilterChange st text filterKey).
Proof.
  rewrite !sortedAndFilteredData_eq. simpl. f_equal.
  apply filter_ext. intros country. unfold keepsb.
  rewrite (keys_spread_set_value (filters st) filterKey
             (JS.toLowerCase text) text).
  apply forallb_pointwise. intros key.
  destruct (column_eq_dec key filterKey) as [->|Hne].
  - rewrite !lookup_spread_set_same, eqb_empty_lower, matchesb_lower.
    reflexivity.
  - rewrite !lookup_spread_set_other by exact Hne. reflexivity.
Qed.

End FilteredRows.

Lemma empty_filters_keep_all_witness :
  (forall key, In key (Object_keys (filters initialState)) ->
               lookup (filters initialState) key = Prim (Str ""))
  /\ sortedAndFilteredData insertion_sort fetched initialState
     = Ok (stableSort insertion_sort fetched
             (getComparator (order initialState) (orderBy initialState))).
Proof.
  assert (H : forall key, In key (Object_keys (filters initialState)) ->
                          lookup (filters initialState) key = Prim (Str "")).
  { simpl. intros key [<-|[<-|[<-|[]]]]; reflexivity. }
  split; [exact H|].
  exact (empty_filters_keep_all insertion_sort fetched initialState H).
Defined.

Lemma filtered_rows_are_the_matching_rows_witness :
  (forall (A : Type) (cmp : A -> A -> Z) (l : list A),
     Permutation l (insertion_sort A cmp l))
  /\ exists rows,
       sortedAndFilteredData insertion_sort fetched (byCapital "g") = Ok rows
       /\ (List.length rows <= List.length fetched)%nat
       /\ forall row,
            In row rows
            <-> In row fetched
                /\ forall key pattern,
                     active (filters (byCapital "g")) key pattern ->
                     spec_matches row key pattern.
Proof.
  assert (H : forall (A : Type) (cmp : A -> A -> Z) (l : list A),
                Permutation l (insertion_sort A cmp l))
    by (intros; apply insertion_sort_perm).
  split; [exact H|].
  exact (filtered_rows_are_the_matching_rows insertion_sort fetched
           (byCapital "g") H).
Defined.

Lemma typing_into_empty_filter_narrows_witness :
  lookup (filters initialState) col_capital = Prim (Str "")
  /\ exists rows rows' keep,
       sortedAndFilteredData insertion_sort fetched initialState = Ok rows
       /\ sortedAndFilteredData insertion_sort fetched
            (handleFilterChange initialState "lu" col_capital) = Ok rows'
       /\ rows' = filter keep rows.
Proof.
  assert (H : lookup (filters initialState) col_capital = Prim (Str ""))
    by reflexivity.
  split; [exact H|].
  exact (typing_into_empty_filter_narrows insertion_sort fetched initialState
           "lu" col_capital (or_introl H)).
Defined.

(** A country whose currency is null, undefined or empty is not kept
    under a non-empty currency filter, and the evaluation returns rather
    than throws. *)
Theorem applyFilters_missing_currency
    (filters : Filters) (country : Country) (pattern : string) :
  currency country = Null \/ currency country = Undefined
  \/ currency country = Str "" ->
  active filters col_currency pattern ->
  applyFilters filters country = Ok false.
Proof.
  intros Hcur Hact. rewrite applyFilters_keepsb. f_equal.
  destruct (keepsb filters country) eqn:Hk; [|reflexivity].
  exfalso. rewrite keepsb_iff in Hk.
  destruct (Hk _ _ Hact) as [s [Hs Hin]].
  destruct Hact as (_ & _ & Hne).
  destruct Hcur as [H|[H|H]]; rewrite H in Hs; try discriminate.
  injection Hs as <-. unfold contains_ci in Hin.
  apply includes_iff in Hin. simpl in Hin.
  apply includes_empty_text in Hin.
  apply (proj1 (toLowerCase_empty pattern)) in Hin. contradiction.
Qed.

Lemma applyFilters_missing_currency_witness :
  currency Antarctica = Null
  /\ active (filters (handleFilterChange initialState "a" col_currency))
            col_currency "a"
  /\ applyFilters (filters (handleFilterChange initialState "a" col_currency))
                  Antarctica = Ok false.
Proof.
  assert (Hact : active
            (filters (handleFilterChange initialState "a" col_currency))
            col_currency "a").
  { split; [simpl; auto|]. split; [reflexivity|discriminate]. }
  split; [reflexivity|]. split; [exact Hact|].
  apply (applyFilters_missing_currency _ Antarctica "a");
    [left; reflexivity | exact Hact].
Defined.

(** ** The table head and the table body *)

(** In every state the head shows exactly one active sort label: the one
    of the sort column, with the direction of the state; every other label
    shows ascending.  A click on a label requests the sort on its own
    column. *)
Theorem EnhancedTableHead_one_active (st : State) :
  (exists label,
     filter SortLabel.active
            (EnhancedTableHead (order st) (orderBy st) headCells) = [label]
     /\ SortLabel.onClick label = orderBy st
     /\ SortLabel.direction label = order st)
  /\ (forall label,
        In label (EnhancedTableHead (order st) (orderBy st) headCells) ->
        SortLabel.active label = false ->
        SortLabel.direction label = asc)
  /\ map SortLabel.onClick (EnhancedTableHead (order st) (orderBy st) headCells)
     = map HeadCell.id headCells.
Proof.
  split; [|split].
  - destruct (orderBy st); eexists; (split; [reflexivity|]); split; reflexivity.
  - intros label Hin Hact. unfold EnhancedTableHead in Hin.
    apply in_map_iff in Hin. destruct Hin as (cell & <- & _).
    simpl in *. destruct (column_eq_dec (orderBy st) (HeadCell.id cell));
      [discriminate|reflexivity].
  - unfold EnhancedTableHead. rewrite map_map. reflexivity.
Qed.

(** Each cell of an exported row holds what the table shows in the column
    that the header of the export names at that place. *)
Theorem exported_cells_are_table_cells (country : Country) :
  Forall2 (fun heading cell =>
             exists headCell,
               In headCell headCells
               /\ heading = Str (HeadCell.label headCell)
               /\ renderCell country headCell = Prim cell)
          (firstn (List.length (exportRow country)) header)
          (exportRow country).
Proof.
  simpl. repeat constructor.
  - exists (HeadCell.make col_name "Name"). simpl. auto.
  - exists (HeadCell.make col_capital "Capital"). simpl. auto 10.
  - exists (HeadCell.make col_currency "Currency"). simpl. auto 10.
  - exists (HeadCell.make col_languages "Languages"). simpl. auto 10.
Qed.

(** ** One result on every engine *)

Lemma insertion_sort_from_end_contract :
  Array_sort_contract insertion_sort_from_end.
Proof.
  intros A cmp l Hc. unfold insertion_sort_from_end.
  assert (Hr : consistent_on cmp (rev l)).
  { apply consistent_on_incl with (l := l); [|exact Hc].
    intros x Hx. apply in_rev. exact Hx. }
  split.
  - rewrite <- insertion_sort_perm. apply Permutation_rev.
  - apply insertion_sort_sorted. exact Hr.
Qed.

(** When no row lacks a value in the column, the sorted rows do not depend
    on the engine: any two engines that meet the contract return the same
    list. *)
Theorem stableSort_engine_independent
    (Array_sort Array_sort' : forall A : Type, (A -> A -> Z) -> list A -> list A)
    (order : Order) (orderBy : column) (countries : list Country) :
  Array_sort_contract Array_sort ->
  Array_sort_contract Array_sort' ->
  no_missing orderBy countries ->
  stableSort Array_sort countries (getComparator order orderBy)
  = stableSort Array_sort' countries (getComparator order orderBy).
Proof.
  intros H1 H2 Hm.
  pose proof (getComparator_consistent order orderBy countries Hm) as Hc.
  rewrite (stableSort_insertion_sort Array_sort countries _ H1 Hc).
  rewrite (stableSort_insertion_sort Array_sort' countries _ H2 Hc).
  reflexivity.
Qed.

Lemma stableSort_engine_independent_witness :
  Array_sort_contract insertion_sort
  /\ Array_sort_contract insertion_sort_from_end
  /\ no_missing col_native fetched
  /\ stableSort insertion_sort fetched (getComparator desc col_native)
     = stableSort insertion_sort_from_end fetched
         (getComparator desc col_native).
Proof.
  assert (H : no_missing col_native fetched)
    by (apply no_missing_total; right; left; reflexivity).
  split; [exact insertion_sort_contract|].
  split; [exact insertion_sort_from_end_contract|].
  split; [exact H|].
  exact (stableSort_engine_independent insertion_sort insertion_sort_from_end
           desc col_native fetched insertion_sort_contract
           insertion_sort_from_end_contract H).
Defined.
